(** * Plants gallery: a shallow embedding of [src/pages/index.tsx]

    The page has two components.  [Gallery] owns the list of image records
    for the session and renders one tile per record; [Uploader] is a modal
    form whose submit handler checks a key, builds a record, inserts it into
    the hosted store and appends it to the list owned by [Gallery].

    Strings are byte strings; the [number] fields of the page are integers
    ([Z] for record ids, [nat] for an array length). *)

From Stdlib Require Import String Ascii List ZArith Bool Arith Lia Permutation.
Import ListNotations.
Open Scope string_scope.
Open Scope list_scope.

(** ** Data model *)

(** [type Image = { id; imageSrc; name; username }]. *)
Module Image.
Record t : Type := mk {
  id : Z;
  imageSrc : string;
  name : string;
  username : string
}.
End Image.

(** [type Inputs = { imageSrc; name; username; key }]: the values of the four
    text inputs of the form.  An input left blank holds the empty string. *)
Module Inputs.
Record t : Type := mk {
  imageSrc : string;
  name : string;
  username : string;
  key : string
}.
End Inputs.

(** ** Abrupt completion

    Evaluating an expression either yields a value or throws. *)

Inductive JsError : Type :=
| TypeError (message : string).

Inductive Completion (A : Type) : Type :=
| Normal (a : A)
| Throw (e : JsError).

Arguments Normal {A} a.
Arguments Throw {A} e.

Definition bind {A B : Type} (c : Completion A) (k : A -> Completion B)
  : Completion B :=
  match c with
  | Normal a => k a
  | Throw e => Throw e
  end.

Notation "x <- c ;; k" := (bind c (fun x => k))
  (at level 61, c at next level, right associativity).

(** ** Regular expressions

    The constructs used by the pattern of the [imageSrc] input: literals,
    [.], character classes, [\b], grouping by concatenation, [?], [{m,n}]
    and [*].  The pattern carries no [i], [s] or [u] flag. *)

Inductive ClassItem : Type :=
| One (c : ascii)
| Span (lo hi : ascii).

Inductive Regex : Type :=
| Empty
| Lit (c : ascii)
| Dot
| Class (items : list ClassItem)
| WordBoundary
| Cat (r1 r2 : Regex)
| Maybe (r : Regex)
| Repeat (lo hi : nat) (r : Regex)
| Star (r : Regex).

Definition inItem (c : ascii) (i : ClassItem) : bool :=
  match i with
  | One d => Ascii.eqb c d
  | Span lo hi =>
      Nat.leb (nat_of_ascii lo) (nat_of_ascii c)
      && Nat.leb (nat_of_ascii c) (nat_of_ascii hi)
  end.

Definition inClass (items : list ClassItem) (c : ascii) : bool :=
  existsb (inItem c) items.

(** [.] matches any character but a line terminator. *)
Definition isLineTerminator (c : ascii) : bool :=
  Ascii.eqb c "010" || Ascii.eqb c "013".

(** The word characters of [\b]: [A-Za-z0-9_]. *)
Definition isWordChar (c : ascii) : bool :=
  inClass [Span "a" "z"; Span "A" "Z"; Span "0" "9"; One "_"] c.

Definition wordBefore (prev : option ascii) : bool :=
  match prev with
  | Some c => isWordChar c
  | None => false
  end.

Definition wordAfter (s : string) : bool :=
  match s with
  | String c _ => isWordChar c
  | EmptyString => false
  end.

(** One character matched by predicate [p]. *)
Definition matchChar (p : ascii -> bool) (s : string)
    (k : option ascii -> string -> bool) : bool :=
  match s with
  | String c s' => if p c then k (Some c) s' else false
  | EmptyString => false
  end.

(** Backtracking matcher.  [prev] is the character before the current
    position (none at the start of the input), [s] the rest of the input and
    [k] the continuation that matches what follows [r].  Quantifiers are
    greedy.  An iteration of [*] that consumes nothing is abandoned, so the
    length of [s] bounds the number of iterations. *)
Fixpoint matchRegex (r : Regex) (prev : option ascii) (s : string)
    (k : option ascii -> string -> bool) {struct r} : bool :=
  match r with
  | Empty => k prev s
  | Lit c => matchChar (Ascii.eqb c) s k
  | Dot => matchChar (fun c => negb (isLineTerminator c)) s k
  | Class items => matchChar (inClass items) s k
  | WordBoundary =>
      if xorb (wordBefore prev) (wordAfter s) then k prev s else false
  | Cat r1 r2 =>
      matchRegex r1 prev s (fun prev' s' => matchRegex r2 prev' s' k)
  | Maybe r1 => matchRegex r1 prev s k || k prev s
  | Repeat lo hi r1 =>
      (fix rep (lo hi : nat) (prev : option ascii) (s : string) : bool :=
         match hi with
         | O => match lo with O => k prev s | S _ => false end
         | S hi' =>
             matchRegex r1 prev s (fun prev' s' => rep (Nat.pred lo) hi' prev' s')
             || match lo with O => k prev s | S _ => false end
         end) lo hi prev s
  | Star r1 =>
      (fix star (fuel : nat) (prev : option ascii) (s : string) : bool :=
         match fuel with
         | O => k prev s
         | S fuel' =>
             matchRegex r1 prev s
               (fun prev' s' =>
                  if Nat.ltb (String.length s') (String.length s)
                  then star fuel' prev' s' else false)
             || k prev s
         end) (String.length s) prev s
  end.

(** A match starting at the current position, or at a later one. *)
Fixpoint searchFrom (r : Regex) (prev : option ascii) (s : string) : bool :=
  matchRegex r prev s (fun _ _ => true)
  || match s with
     | String c s' => searchFrom r (Some c) s'
     | EmptyString => false
     end.

(** [s.match(r)] is non-null: [r] matches somewhere in [s]. *)
Definition stringMatches (s : string) (r : Regex) : bool :=
  searchFrom r None s.

(** The matches of [r] at a position do not depend on the character before
    that position. *)
Definition ignoresPrev (r : Regex) : Prop :=
  forall (p1 p2 : option ascii) (s : string) (k : option ascii -> string -> bool),
    matchRegex r p1 s k = matchRegex r p2 s k.

(** The characters of [s] in sequence. *)
Fixpoint lits (s : string) : Regex :=
  match s with
  | EmptyString => Empty
  | String c s' => Cat (Lit c) (lits s')
  end.

Fixpoint seq (rs : list Regex) : Regex :=
  match rs with
  | [] => Empty
  | r :: rs' => Cat r (seq rs')
  end.

(** [[-a-zA-Z0-9@:%._\+~#=]] *)
Definition hostClass : Regex :=
  Class [One "-"; Span "a" "z"; Span "A" "Z"; Span "0" "9"; One "@"; One ":";
         One "%"; One "."; One "_"; One "+"; One "~"; One "#"; One "="].

(** [[-a-zA-Z0-9@:%_\+.~#?&//=]] *)
Definition pathClass : Regex :=
  Class [One "-"; Span "a" "z"; Span "A" "Z"; Span "0" "9"; One "@"; One ":";
         One "%"; One "_"; One "+"; One "."; One "~"; One "#"; One "?";
         One "&"; One "/"; One "/"; One "="].

(** The [pattern] registered for [imageSrc]: an optional scheme
    [http(s)?:\/\/.], an optional [www\.], two to 256 characters of
    [hostClass], a dot, two to six lower-case letters, a word boundary and
    any number of characters of [pathClass]. *)
Definition imageSrcPattern : Regex :=
  seq [ Maybe (seq [lits "http"; Maybe (Lit "s"); lits "://"; Dot]);
        Maybe (lits "www.");
        Repeat 2 256 hostClass;
        Lit ".";
        Repeat 2 6 (Class [Span "a" "z"]);
        WordBoundary;
        Star pathClass ].

(** ** Form validation

    The form is driven by react-hook-form.  [register] records, per input,
    the rules given in the page; [handleSubmit] checks them against the
    current values and calls the page's handler only when none fails. *)

Inductive FieldName : Type := imageSrcField | nameField | usernameField | keyField.

Inductive ErrorType : Type := requiredError | patternError.

Record RegisterOptions : Type := {
  required : bool;
  pattern : option Regex
}.

(** The four [register] calls of the form. *)
Definition register (f : FieldName) : RegisterOptions :=
  match f with
  | imageSrcField => {| pattern := Some imageSrcPattern; required := true |}
  | nameField => {| pattern := None; required := false |}
  | usernameField => {| pattern := None; required := false |}
  | keyField => {| pattern := None; required := true |}
  end.

Definition fieldValue (data : Inputs.t) (f : FieldName) : string :=
  match f with
  | imageSrcField => Inputs.imageSrc data
  | nameField => Inputs.name data
  | usernameField => Inputs.username data
  | keyField => Inputs.key data
  end.

(** A required input must not be empty; a non-empty input with a pattern
    must contain a match of it. *)
Definition validateField (opts : RegisterOptions) (value : string)
  : option ErrorType :=
  if required opts && (value =? "") then Some requiredError
  else match pattern opts with
       | Some r =>
           if negb (value =? "") && negb (stringMatches value r)
           then Some patternError else None
       | None => None
       end.

Definition FieldErrors : Type := list (FieldName * ErrorType).

Fixpoint validateFields (data : Inputs.t) (fs : list FieldName) : FieldErrors :=
  match fs with
  | [] => []
  | f :: fs' =>
      match validateField (register f) (fieldValue data f) with
      | Some e => (f, e) :: validateFields data fs'
      | None => validateFields data fs'
      end
  end.

Definition validate (data : Inputs.t) : FieldErrors :=
  validateFields data [imageSrcField; nameField; usernameField; keyField].

(** ** Rendering *)

(** [<BlurImage key={image.id} image={image} />] *)
Record BlurImageElement : Type := {
  tileKey : Z;
  image : Image.t
}.

(** [<Uploader amount={...} setLocalImages={setLocalImages} />] *)
Record UploaderElement : Type := {
  amount : nat
}.

Inductive Grid : Type :=
| Tiles (tiles : list BlurImageElement)
| NotFound (text : string).

Record GalleryView : Type := {
  title : string;
  uploader : UploaderElement;
  grid : Grid
}.

Definition Title : string := "Plants gallery".

(** [v.length], where [v] is an array or [null]. *)
Definition arrayLength {A : Type} (v : option (list A)) : Completion nat :=
  match v with
  | Some arr => Normal (List.length arr)
  | None => Throw (TypeError "Cannot read properties of null (reading 'length')")
  end.

Definition tileOf (image : Image.t) : BlurImageElement :=
  {| tileKey := Image.id image; image := image |}.

(** [Gallery], as a function of the value held in [localImages] (the
    [images] prop on the first render).  The header, with the [Uploader]
    element and its [amount], is built before the grid. *)
Definition Gallery (localImages : option (list Image.t))
  : Completion GalleryView :=
  amount <- arrayLength localImages ;;
  Normal {| title := Title;
            uploader := {| amount := amount |};
            grid := match localImages with
                    | Some arr => Tiles (map tileOf arr)
                    | None => NotFound "Images not found"
                    end |}.

(** A tile: a link to the image, the image itself (blurred while it loads),
    the name and the user name. *)
Record TileView : Type := {
  href : string;
  src : string;
  blurred : bool;
  heading : string;
  caption : string
}.

Definition BlurImage (image : Image.t) (isLoading : bool) : TileView :=
  {| href := Image.imageSrc image;
     src := Image.imageSrc image;
     blurred := isLoading;
     heading := Image.name image;
     caption := Image.username image |}.

(** The dialog of [Uploader]: a title, four text inputs (shown here by
    their placeholders) and the save button. *)
Record DialogView : Type := {
  dialogTitle : string;
  placeholders : list string;
  saveButton : string
}.

Record UploaderView : Type := {
  uploadButton : string;
  dialog : option DialogView
}.

(** What [Uploader] returns.  [errors] is read from the form state and not
    rendered. *)
Definition Uploader (isOpen : bool) (errors : FieldErrors) : UploaderView :=
  {| uploadButton := "Upload";
     dialog :=
       if isOpen
       then Some {| dialogTitle := "Add new plant";
                    placeholders := ["Image link from Unsplash";
                                     "Give a name to image or not";
                                     "Introduce yourself or not";
                                     "Your key"];
                    saveButton := "Save" |}
       else None |}.

(** ** Session state

    [localImages] is the state of [Gallery]; [isOpen] and [errors] are the
    state of [Uploader] and of its form.  [inserted] lists the records
    passed to the store's [insert], in call order; [awaiting] lists the
    records of the handler runs that are suspended at [await], oldest
    first. *)

Record State : Type := {
  localImages : list Image.t;
  isOpen : bool;
  errors : FieldErrors;
  awaiting : list Image.t;
  inserted : list Image.t
}.

Definition initialState (images : list Image.t) : State :=
  {| localImages := images; isOpen := false; errors := [];
     awaiting := []; inserted := [] |}.

Definition setLocalImages (f : list Image.t -> list Image.t) (st : State)
  : State :=
  {| localImages := f (localImages st); isOpen := isOpen st;
     errors := errors st; awaiting := awaiting st; inserted := inserted st |}.

Definition setIsOpen (b : bool) (st : State) : State :=
  {| localImages := localImages st; isOpen := b;
     errors := errors st; awaiting := awaiting st; inserted := inserted st |}.

Definition setErrors (errs : FieldErrors) (st : State) : State :=
  {| localImages := localImages st; isOpen := isOpen st;
     errors := errs; awaiting := awaiting st; inserted := inserted st |}.

Definition closeModal : State -> State := setIsOpen false.
Definition openModal : State -> State := setIsOpen true.

(** [supabaseAdmin.from('images').insert(item)]: the request is issued and
    the caller suspends until it settles. *)
Definition insert (item : Image.t) (st : State) : State :=
  {| localImages := localImages st; isOpen := isOpen st; errors := errors st;
     awaiting := awaiting st ++ [item]; inserted := inserted st ++ [item] |}.

(** What the awaited insert resolves to. *)
Inductive InsertResult : Type :=
| InsertOk
| InsertError (message : string).

(** [a || b] on strings: the empty string is falsy. *)
Definition orElse (a b : string) : string :=
  if a =? "" then b else a.

Definition newItem (amount : nat) (data : Inputs.t) : Image.t :=
  {| Image.id := Z.of_nat amount + 1;
     Image.imageSrc := Inputs.imageSrc data;
     Image.name := orElse (Inputs.name data) "plant from anonymous";
     Image.username := orElse (Inputs.username data) "anonymous" |}.

(** [onSubmit], up to its [await]. *)
Definition onSubmit (amount : nat) (data : Inputs.t) (st : State) : State :=
  if negb (Inputs.key data =? "on") then closeModal st
  else insert (newItem amount data) st.

(** [onSubmit], from its [await] on.  The result of the insert is dropped. *)
Definition onSubmitResume (item : Image.t) (result : InsertResult)
    (st : State) : State :=
  closeModal (setLocalImages (fun prev => prev ++ [item]) st).

Definition handleSubmit (onValid : Inputs.t -> State -> State)
    (data : Inputs.t) (st : State) : State :=
  match validate data with
  | [] => onValid data (setErrors [] st)
  | errs => setErrors errs st
  end.

(** ** Sessions *)

Inductive Event : Type :=
| ClickUpload
| DismissDialog
| SubmitForm (data : Inputs.t)
| InsertSettled (n : nat) (result : InsertResult).

Definition removeNth {A : Type} (n : nat) (l : list A) : list A :=
  firstn n l ++ skipn (S n) l.

Definition stopAwaiting (n : nat) (st : State) : State :=
  {| localImages := localImages st; isOpen := isOpen st; errors := errors st;
     awaiting := removeNth n (awaiting st); inserted := inserted st |}.

(** One event.  The form exists only while the dialog is open, and the
    handler built by a render sees the [amount] of that render, the length
    of [localImages].  [InsertSettled n result] resumes the [n]-th
    suspended run of the handler. *)
Definition step (st : State) (e : Event) : State :=
  match e with
  | ClickUpload => openModal st
  | DismissDialog => closeModal st
  | SubmitForm data =>
      if isOpen st
      then handleSubmit (onSubmit (List.length (localImages st))) data st
      else st
  | InsertSettled n result =>
      match nth_error (awaiting st) n with
      | Some item => onSubmitResume item result (stopAwaiting n st)
      | None => st
      end
  end.

Definition run (st : State) (evs : list Event) : State :=
  fold_left step evs st.

(** No insert settles before an older one. *)
Definition inOrder (evs : list Event) : bool :=
  forallb (fun e => match e with
                    | InsertSettled n _ => Nat.eqb n 0
                    | _ => true
                    end) evs.

(** The record that event [e] appends to the list in state [st]: the one
    whose insert settles, the [n]-th outstanding one for [InsertSettled n]. *)
Definition settledBy (st : State) (e : Event) : list Image.t :=
  match e with
  | InsertSettled n _ =>
      match nth_error (awaiting st) n with
      | Some item => [item]
      | None => []
      end
  | _ => []
  end.

(** The record that event [e] passes to the store's insert in state [st]:
    the one built from a form submitted while the dialog is open, with
    valid inputs and the key [on]. *)
Definition submittedBy (st : State) (e : Event) : list Image.t :=
  match e with
  | SubmitForm data =>
      if isOpen st
         && match validate data with [] => true | _ :: _ => false end
         && (Inputs.key data =? "on")
      then [newItem (List.length (localImages st)) data]
      else []
  | _ => []
  end.

(** What the events of a session yield, in the order of the events. *)
Fixpoint collect (f : State -> Event -> list Image.t) (st : State)
    (evs : list Event) : list Image.t :=
  match evs with
  | [] => []
  | e :: evs' => f st e ++ collect f (step st e) evs'
  end.

(** The records whose inserts settled, in the order in which they settled. *)
Definition settledRecords : State -> list Event -> list Image.t :=
  collect settledBy.

(** The records submitted to the store, in the order of submission. *)
Definition submittedRecords : State -> list Event -> list Image.t :=
  collect submittedBy.

(** ** Sample data *)

Definition fern : Image.t :=
  {| Image.id := 1;
     Image.imageSrc := "https://images.unsplash.com/photo-fern";
     Image.name := "fern";
     Image.username := "ann" |}.

(** A session with one record loaded and the dialog opened. *)
Definition openSession : State := step (initialState [fern]) ClickUpload.

Definition mossInputs : Inputs.t :=
  Inputs.mk "https://images.unsplash.com/photo-moss" "" "" "on".

Definition ivyInputs : Inputs.t :=
  Inputs.mk "https://images.unsplash.com/photo-ivy" "ivy" "bob" "on".

Definition wrongKeyInputs : Inputs.t :=
  Inputs.mk "https://images.unsplash.com/photo-moss" "moss" "" "off".

Definition notUrlInputs : Inputs.t := Inputs.mk "not a url" "" "" "on".

(** Two submissions whose inserts are both outstanding, the second insert
    settling first. *)
Definition overlappingSession : list Event :=
  [ClickUpload; SubmitForm mossInputs; SubmitForm ivyInputs;
   InsertSettled 1 InsertOk; InsertSettled 0 InsertOk].

(** ** Class names *)

(** [l.join(sep)] *)
Fixpoint join (sep : string) (l : list string) : string :=
  match l with
  | [] => ""
  | [x] => x
  | x :: l' => (x ++ sep ++ join sep l')%string
  end.

(** [Boolean(s)] on a string. *)
Definition truthy (s : string) : bool := negb (s =? "").

(** [cn(...classes)]: [classes.filter(Boolean).join(' ')]. *)
Definition cn (classes : list string) : string :=
  join " " (filter truthy classes).

(** The [className] that [BlurImage] gives the image. *)
Definition blurImageClassName (isLoading : bool) : string :=
  cn ["duration-700 ease-in-out group-hover:opacity-75";
      if isLoading then "scale-110 blur-2xl grayscale"
      else "scale-100 blur-0 grayscale-0"].

(** ** Shapes of inputs and of sessions *)

(** The loop that [matchRegex] runs on [Star r]. *)
Definition starLoop (r : Regex) (k : option ascii -> string -> bool)
  : nat -> option ascii -> string -> bool :=
  fix star (fuel : nat) (prev : option ascii) (s : string) : bool :=
    match fuel with
    | O => k prev s
    | S fuel' =>
        matchRegex r prev s
          (fun prev' s' =>
             if Nat.ltb (String.length s') (String.length s)
             then star fuel' prev' s' else false)
        || k prev s
    end.

Fixpoint allChars (p : ascii -> bool) (w : string) : bool :=
  match w with
  | EmptyString => true
  | String c w' => p c && allChars p w'
  end.

(** The character before the position reached by reading [w]. *)
Fixpoint lastChar (prev : option ascii) (w : string) : option ascii :=
  match w with
  | EmptyString => prev
  | String c w' => lastChar (Some c) w'
  end.

Fixpoint hasChar (c : ascii) (s : string) : bool :=
  match s with
  | EmptyString => false
  | String d s' => Ascii.eqb c d || hasChar c s'
  end.

Definition isHostChar (c : ascii) : bool :=
  inClass [One "-"; Span "a" "z"; Span "A" "Z"; Span "0" "9"; One "@"; One ":";
           One "%"; One "."; One "_"; One "+"; One "~"; One "#"; One "="] c.

Definition isLowerChar (c : ascii) : bool := inClass [Span "a" "z"] c.

(** [host], a dot and [tld], followed by [rest], are what the pattern
    needs: two to 256 host characters, two to six lower-case letters, and
    no word character next. *)
Definition urlCore (host tld rest : string) : bool :=
  allChars isHostChar host
  && Nat.leb 2 (String.length host) && Nat.leb (String.length host) 256
  && allChars isLowerChar tld
  && Nat.leb 2 (String.length tld) && Nat.leb (String.length tld) 6
  && negb (wordAfter rest).

(** Some submission of the session carries the key [on]. *)
Definition usesKey (evs : list Event) : bool :=
  existsb (fun e => match e with
                    | SubmitForm data => Inputs.key data =? "on"
                    | _ => false
                    end) evs.

(** No form is submitted while an insert is outstanding. *)
Fixpoint sequential (st : State) (evs : list Event) : bool :=
  match evs with
  | [] => true
  | e :: evs' =>
      match e with
      | SubmitForm _ =>
          match awaiting st with
          | [] => sequential (step st e) evs'
          | _ :: _ => false
          end
      | _ => sequential (step st e) evs'
      end
  end.

(** The ids of [l] are 1, 2, ... in list order. *)
Definition idsFromOne (l : list Image.t) : Prop :=
  map Image.id l = map Z.of_nat (List.seq 1 (List.length l)).

(** Two states that differ at most in the form errors. *)
Definition sameButErrors (s1 s2 : State) : Prop :=
  localImages s1 = localImages s2
  /\ isOpen s1 = isOpen s2
  /\ awaiting s1 = awaiting s2
  /\ inserted s1 = inserted s2.

(** What the handler sends to the store is fit to display: the [imageSrc]
    passed the pattern, name and user name are not empty, the id is
    positive. *)
Definition wellFormed (item : Image.t) : Prop :=
  stringMatches (Image.imageSrc item) imageSrcPattern = true
  /\ Image.name item <> ""
  /\ Image.username item <> ""
  /\ (1 <= Image.id item)%Z.

(** * Properties *)

(** ** Validation *)

Lemma optional_field_valid (v : string) :
  validateField {| required := false; pattern := None |} v = None.
Proof. reflexivity. Qed.

Lemma required_field_valid (v : string) :
  validateField (register keyField) v = None <-> v <> "".
Proof.
  unfold validateField; cbn [register required pattern andb].
  destruct (v =? "") eqn:E.
  - apply String.eqb_eq in E. split; [discriminate | congruence].
  - apply String.eqb_neq in E. split; [auto | reflexivity].
Qed.

Lemma imageSrc_valid (v : string) :
  validateField (register imageSrcField) v = None <->
  v <> "" /\ stringMatches v imageSrcPattern = true.
Proof.
  unfold validateField; cbn [register required pattern andb].
  destruct (v =? "") eqn:E.
  - apply String.eqb_eq in E. split; [discriminate | intros [H _]; congruence].
  - apply String.eqb_neq in E. cbn [negb andb].
    destruct (stringMatches v imageSrcPattern); cbn [negb]; split;
      try discriminate; auto.
    intros [_ H]; discriminate.
Qed.

Lemma validate_unfold (data : Inputs.t) :
  validate data =
  match validateField (register imageSrcField) (Inputs.imageSrc data) with
  | Some e => [(imageSrcField, e)]
  | None => []
  end ++
  match validateField (register keyField) (Inputs.key data) with
  | Some e => [(keyField, e)]
  | None => []
  end.
Proof.
  unfold validate, validateFields.
  cbn [fieldValue].
  change (register nameField) with {| required := false; pattern := None |}.
  change (register usernameField) with {| required := false; pattern := None |}.
  rewrite !optional_field_valid.
  destruct (validateField (register imageSrcField) _);
    destruct (validateField (register keyField) _); reflexivity.
Qed.

Lemma validate_nil (data : Inputs.t) :
  validate data = [] <->
  validateField (register imageSrcField) (Inputs.imageSrc data) = None
  /\ Inputs.key data <> "".
Proof.
  rewrite validate_unfold, <- required_field_valid.
  destruct (validateField (register imageSrcField) _);
    destruct (validateField (register keyField) _); cbn; split;
    try discriminate; auto; intros [? ?]; discriminate.
Qed.

Lemma handleSubmit_valid (onValid : Inputs.t -> State -> State)
    (data : Inputs.t) (st : State) :
  validate data = [] ->
  handleSubmit onValid data st = onValid data (setErrors [] st).
Proof. unfold handleSubmit. now intros ->. Qed.

Lemma handleSubmit_invalid (onValid : Inputs.t -> State -> State)
    (data : Inputs.t) (st : State) :
  validate data <> [] ->
  handleSubmit onValid data st = setErrors (validate data) st.
Proof. unfold handleSubmit. destruct (validate data); [congruence | reflexivity]. Qed.

Lemma on_is_not_empty : "on" <> "".
Proof. discriminate. Qed.

(** ** The handler *)

Lemma onSubmit_gate_closed (amount : nat) (data : Inputs.t) (st : State) :
  Inputs.key data <> "on" -> onSubmit amount data st = closeModal st.
Proof.
  intro H. unfold onSubmit. now rewrite (proj2 (String.eqb_neq _ _) H).
Qed.

Lemma onSubmit_gate_open (amount : nat) (data : Inputs.t) (st : State) :
  Inputs.key data = "on" ->
  onSubmit amount data st = insert (newItem amount data) st.
Proof.
  intro H. unfold onSubmit. now rewrite (proj2 (String.eqb_eq _ _) H).
Qed.

Lemma nth_error_last {A : Type} (l : list A) (x : A) :
  nth_error (l ++ [x]) (List.length l) = Some x.
Proof.
  rewrite nth_error_app2 by lia. now rewrite Nat.sub_diag.
Qed.

Lemma removeNth_last {A : Type} (l : list A) (x : A) :
  removeNth (List.length l) (l ++ [x]) = l.
Proof.
  unfold removeNth.
  rewrite firstn_app, Nat.sub_diag, firstn_all, firstn_O, app_nil_r.
  rewrite skipn_all2; [apply app_nil_r | rewrite length_app; cbn; lia].
Qed.

(** A submission that passes validation and the gate, run to its end. *)
Lemma accepted_submission (st : State) (data : Inputs.t) (result : InsertResult) :
  isOpen st = true ->
  validate data = [] ->
  Inputs.key data = "on" ->
  let item := newItem (List.length (localImages st)) data in
  step st (SubmitForm data) = insert item (setErrors [] st)
  /\ run st [SubmitForm data; InsertSettled (List.length (awaiting st)) result]
     = {| localImages := localImages st ++ [item];
          isOpen := false;
          errors := [];
          awaiting := awaiting st;
          inserted := inserted st ++ [item] |}.
Proof.
  intros Hopen Hvalid Hkey item.
  assert (Hstep : step st (SubmitForm data) = insert item (setErrors [] st)).
  { cbn [step]. rewrite Hopen, handleSubmit_valid by assumption.
    now apply onSubmit_gate_open. }
  split; [exact Hstep |].
  unfold run; cbn [fold_left]. rewrite Hstep.
  cbn [step].
  unfold onSubmitResume, closeModal, setIsOpen, setLocalImages, stopAwaiting,
    insert, setErrors.
  cbn [localImages isOpen errors awaiting inserted].
  now rewrite nth_error_last, removeNth_last.
Qed.

(** ** Submissions *)

(** C1.  From any list of length [N], submitting key [on], a valid
    [imageSrc] and empty [name] and [username], and letting the insert
    settle, appends exactly one record: [plant from anonymous], by
    [anonymous], with id [N + 1] and the [imageSrc] entered. *)
Theorem anonymous_submission_appends_record
    (st : State) (imageSrc : string) (result : InsertResult) :
  isOpen st = true ->
  validateField (register imageSrcField) imageSrc = None ->
  let N := List.length (localImages st) in
  let st' := run st [SubmitForm (Inputs.mk imageSrc "" "" "on");
                     InsertSettled (List.length (awaiting st)) result] in
  localImages st' =
    localImages st
    ++ [Image.mk (Z.of_nat N + 1) imageSrc "plant from anonymous" "anonymous"]
  /\ List.length (localImages st') = S N.
Proof.
  intros Hopen Hsrc N st'.
  assert (Hvalid : validate (Inputs.mk imageSrc "" "" "on") = []).
  { apply validate_nil. split; [exact Hsrc | exact on_is_not_empty]. }
  destruct (accepted_submission st (Inputs.mk imageSrc "" "" "on") result
              Hopen Hvalid eq_refl) as [_ Hrun].
  subst st'. rewrite Hrun. cbn [localImages]. split.
  - reflexivity.
  - rewrite length_app. cbn. subst N. lia.
Qed.

Lemma anonymous_submission_appends_record_witness :
  localImages (run openSession [SubmitForm mossInputs; InsertSettled 0 InsertOk])
  = [fern;
     Image.mk 2 "https://images.unsplash.com/photo-moss"
       "plant from anonymous" "anonymous"].
Proof.
  exact (proj1 (anonymous_submission_appends_record openSession
                  "https://images.unsplash.com/photo-moss" InsertOk
                  eq_refl eq_refl)).
Defined.

(** C2.  A submission that passes validation with a key other than [on]
    closes the dialog, issues no insert, leaves the list as it was and shows
    no error: what is displayed is what dismissing the dialog displays. *)
Theorem wrong_key_is_discarded_silently (st : State) (data : Inputs.t) :
  isOpen st = true ->
  validate data = [] ->
  Inputs.key data <> "on" ->
  let st' := step st (SubmitForm data) in
  isOpen st' = false
  /\ inserted st' = inserted st
  /\ awaiting st' = awaiting st
  /\ localImages st' = localImages st
  /\ errors st' = []
  /\ Uploader (isOpen st') (errors st')
     = Uploader (isOpen (step st DismissDialog)) (errors (step st DismissDialog))
  /\ Gallery (Some (localImages st')) = Gallery (Some (localImages st)).
Proof.
  intros Hopen Hvalid Hkey st'.
  assert (E : st' = closeModal (setErrors [] st)).
  { subst st'. cbn [step]. rewrite Hopen, handleSubmit_valid by assumption.
    now apply onSubmit_gate_closed. }
  rewrite E. repeat split.
Qed.

Lemma wrong_key_is_discarded_silently_witness :
  isOpen (step openSession (SubmitForm wrongKeyInputs)) = false
  /\ localImages (step openSession (SubmitForm wrongKeyInputs)) = [fern]
  /\ inserted (step openSession (SubmitForm wrongKeyInputs)) = [].
Proof.
  assert (Hkey : Inputs.key wrongKeyInputs <> "on") by discriminate.
  destruct (wrong_key_is_discarded_silently openSession wrongKeyInputs
              eq_refl eq_refl Hkey) as (H1 & H2 & _ & H4 & _).
  exact (conj H1 (conj H4 H2)).
Defined.

(** C5.  Once a submission has passed validation and the gate, the record
    is appended and the dialog closed whatever the insert resolved to, and
    nothing of that result is kept or displayed: the state reached after a
    failed insert is the state reached after a successful one. *)
Theorem append_ignores_insert_result
    (st : State) (data : Inputs.t) (result : InsertResult) :
  isOpen st = true ->
  validate data = [] ->
  Inputs.key data = "on" ->
  let settled r :=
    run st [SubmitForm data; InsertSettled (List.length (awaiting st)) r] in
  localImages (settled result)
    = localImages st ++ [newItem (List.length (localImages st)) data]
  /\ isOpen (settled result) = false
  /\ errors (settled result) = []
  /\ Uploader (isOpen (settled result)) (errors (settled result))
     = Uploader false []
  /\ settled result = settled InsertOk.
Proof.
  intros Hopen Hvalid Hkey settled.
  destruct (accepted_submission st data result Hopen Hvalid Hkey) as [_ Hr].
  destruct (accepted_submission st data InsertOk Hopen Hvalid Hkey) as [_ Hok].
  unfold settled. rewrite Hr, Hok. repeat split.
Qed.

Lemma append_ignores_insert_result_witness :
  localImages (run openSession
                 [SubmitForm ivyInputs; InsertSettled 0 (InsertError "timeout")])
  = [fern; Image.mk 2 "https://images.unsplash.com/photo-ivy" "ivy" "bob"].
Proof.
  exact (proj1 (append_ignores_insert_result openSession ivyInputs
                  (InsertError "timeout") eq_refl eq_refl eq_refl)).
Defined.

(** C10.  On a submission that passes validation and the gate, the record
    passed to the store's insert and the record appended to the list are one
    value, made of the id, the [imageSrc], the name and the user name; the
    key is part of neither. *)
Theorem inserted_record_is_appended_record
    (st : State) (data : Inputs.t) (result : InsertResult) :
  isOpen st = true ->
  validate data = [] ->
  Inputs.key data = "on" ->
  let item :=
    Image.mk (Z.of_nat (List.length (localImages st)) + 1)
      (Inputs.imageSrc data)
      (orElse (Inputs.name data) "plant from anonymous")
      (orElse (Inputs.username data) "anonymous") in
  let st1 := step st (SubmitForm data) in
  let st2 := step st1 (InsertSettled (List.length (awaiting st)) result) in
  inserted st1 = inserted st ++ [item]
  /\ localImages st1 = localImages st
  /\ localImages st2 = localImages st ++ [item]
  /\ inserted st2 = inserted st ++ [item].
Proof.
  intros Hopen Hvalid Hkey item st1 st2.
  destruct (accepted_submission st data result Hopen Hvalid Hkey) as [H1 H2].
  unfold run in H2; cbn [fold_left] in H2.
  subst st2 st1. rewrite H2, H1. repeat split.
Qed.

Lemma inserted_record_is_appended_record_witness :
  inserted (step openSession (SubmitForm ivyInputs))
  = [Image.mk 2 "https://images.unsplash.com/photo-ivy" "ivy" "bob"].
Proof.
  exact (proj1 (inserted_record_is_appended_record openSession ivyInputs
                  InsertOk eq_refl eq_refl eq_refl)).
Defined.

(** C7.  When [imageSrc] is empty, the key is empty, or [imageSrc] contains
    no match of the pattern (as in [not a url]), the submission is blocked:
    the handler is not called, the dialog stays as it is and so does the
    list. *)
Theorem invalid_submission_is_blocked
    (st : State) (data : Inputs.t) (onValid : Inputs.t -> State -> State) :
  Inputs.imageSrc data = "" \/ Inputs.key data = ""
  \/ stringMatches (Inputs.imageSrc data) imageSrcPattern = false ->
  handleSubmit onValid data st = setErrors (validate data) st
  /\ validate data <> []
  /\ (let st' := step st (SubmitForm data) in
      isOpen st' = isOpen st
      /\ localImages st' = localImages st
      /\ awaiting st' = awaiting st
      /\ inserted st' = inserted st)
  /\ validate notUrlInputs = [(imageSrcField, patternError)].
Proof.
  intros H.
  assert (Hinvalid : validate data <> []).
  { intros Hnil. apply validate_nil in Hnil. destruct Hnil as [Hsrc Hkey].
    apply imageSrc_valid in Hsrc. destruct Hsrc as [Hne Hmatch].
    destruct H as [H | [H | H]]; congruence. }
  split; [now apply handleSubmit_invalid |].
  split; [exact Hinvalid |].
  split; [| vm_compute; reflexivity].
  cbn [step]. destruct (isOpen st) eqn:Hopen.
  - rewrite handleSubmit_invalid by assumption. rewrite <- Hopen. repeat split.
  - rewrite <- Hopen. repeat split.
Qed.

Lemma invalid_submission_is_blocked_witness :
  step openSession (SubmitForm notUrlInputs)
  = setErrors [(imageSrcField, patternError)] openSession.
Proof.
  assert (H : Inputs.imageSrc notUrlInputs = "" \/ Inputs.key notUrlInputs = ""
              \/ stringMatches (Inputs.imageSrc notUrlInputs) imageSrcPattern
                 = false).
  { right; right. vm_compute. reflexivity. }
  exact (proj1 (invalid_submission_is_blocked openSession notUrlInputs
                  (onSubmit (List.length (localImages openSession))) H)).
Defined.

(** ** Rendering *)

Lemma Gallery_array (arr : list Image.t) :
  Gallery (Some arr)
  = Normal {| title := Title;
              uploader := {| amount := List.length arr |};
              grid := Tiles (map tileOf arr) |}.
Proof. reflexivity. Qed.

Lemma tiles_are_the_records (arr : list Image.t) :
  map image (map tileOf arr) = arr.
Proof.
  induction arr as [| x arr IH]; cbn; [reflexivity | now rewrite IH].
Qed.

(** C3.  With [null] for the records, [Gallery] throws while building the
    [Uploader] element; no view is returned, so neither the fallback text
    nor an empty grid is rendered. *)
Theorem null_images_throw_instead_of_fallback :
  Gallery None
  = Throw (TypeError "Cannot read properties of null (reading 'length')")
  /\ forall v : GalleryView, Gallery None <> Normal v.
Proof.
  split; [reflexivity | discriminate].
Qed.

(** C9.  [Gallery] reads the length of [localImages] for the [amount] of
    [Uploader] before it tests [localImages] for the fallback.  So it
    returns a view exactly on arrays, the view then holds the tiles, and on
    [null] the read of the length throws before the fallback is reached. *)
Theorem length_is_read_before_null_test :
  Gallery None
  = Throw (TypeError "Cannot read properties of null (reading 'length')")
  /\ (forall arr : list Image.t,
        exists v, Gallery (Some arr) = Normal v
                  /\ amount (uploader v) = List.length arr)
  /\ (forall (images : option (list Image.t)) (v : GalleryView),
        Gallery images = Normal v ->
        exists arr, images = Some arr /\ grid v = Tiles (map tileOf arr)).
Proof.
  split; [reflexivity |]. split.
  - intro arr. eexists. split; reflexivity.
  - intros [arr |] v H; [| discriminate].
    exists arr. split; [reflexivity |].
    rewrite Gallery_array in H. injection H as <-. reflexivity.
Qed.

Lemma length_is_read_before_null_test_witness :
  exists arr, Some [fern] = Some arr
              /\ grid {| title := Title; uploader := {| amount := 1 |};
                         grid := Tiles [tileOf fern] |}
                 = Tiles (map tileOf arr).
Proof.
  exact (proj2 (proj2 length_is_read_before_null_test) (Some [fern])
           {| title := Title; uploader := {| amount := 1 |};
              grid := Tiles [tileOf fern] |} eq_refl).
Defined.

(** ** Sessions *)

(** C6.  Two submissions with key [on] and valid fields, the second made
    once the first has been appended, append two records with ids [N + 1]
    and [N + 2], rendered in that order after the [N] earlier tiles. *)
Theorem sequential_submissions_get_consecutive_ids
    (st : State) (d1 d2 : Inputs.t) (r1 r2 : InsertResult) :
  isOpen st = true ->
  validate d1 = [] -> Inputs.key d1 = "on" ->
  validate d2 = [] -> Inputs.key d2 = "on" ->
  let N := List.length (localImages st) in
  let n := List.length (awaiting st) in
  let st' := run st [SubmitForm d1; InsertSettled n r1;
                     ClickUpload;
                     SubmitForm d2; InsertSettled n r2] in
  exists item1 item2,
    localImages st' = localImages st ++ [item1; item2]
    /\ Image.id item1 = (Z.of_nat N + 1)%Z
    /\ Image.id item2 = (Z.of_nat N + 2)%Z
    /\ item1 = newItem N d1
    /\ item2 = newItem (S N) d2
    /\ Gallery (Some (localImages st'))
       = Normal {| title := Title;
                   uploader := {| amount := S (S N) |};
                   grid := Tiles (map tileOf (localImages st)
                                  ++ [tileOf item1; tileOf item2]) |}.
Proof.
  intros Hopen Hv1 Hk1 Hv2 Hk2 N n st'.
  destruct (accepted_submission st d1 r1 Hopen Hv1 Hk1) as [_ H1].
  fold N n in H1.
  set (st1 := run st [SubmitForm d1; InsertSettled n r1]) in *.
  set (st2 := step st1 ClickUpload).
  assert (Hlen : List.length (localImages st2) = S N).
  { subst st2. rewrite H1. cbn. rewrite length_app. cbn. subst N. lia. }
  assert (Haw : List.length (awaiting st2) = n).
  { subst st2. rewrite H1. reflexivity. }
  assert (Hopen2 : isOpen st2 = true) by reflexivity.
  destruct (accepted_submission st2 d2 r2 Hopen2 Hv2 Hk2) as [_ H2].
  rewrite Hlen, Haw in H2.
  assert (E : st' = run st2 [SubmitForm d2; InsertSettled n r2]).
  { subst st' st2 st1. reflexivity. }
  exists (newItem N d1), (newItem (S N) d2).
  assert (Hlist : localImages st'
                  = localImages st ++ [newItem N d1; newItem (S N) d2]).
  { rewrite E, H2. cbn [localImages]. subst st2. rewrite H1. cbn.
    now rewrite <- app_assoc. }
  split; [exact Hlist |].
  split; [reflexivity |].
  split; [cbn; lia |].
  split; [reflexivity |].
  split; [reflexivity |].
  rewrite Hlist, Gallery_array, map_app, length_app. cbn.
  fold N. now replace (N + 2) with (S (S N)) by lia.
Qed.

Lemma sequential_submissions_get_consecutive_ids_witness :
  exists item1 item2,
    localImages (run openSession
                   [SubmitForm mossInputs; InsertSettled 0 InsertOk;
                    ClickUpload;
                    SubmitForm ivyInputs; InsertSettled 0 InsertOk])
    = [fern] ++ [item1; item2]
    /\ Image.id item1 = 2%Z /\ Image.id item2 = 3%Z.
Proof.
  destruct (sequential_submissions_get_consecutive_ids openSession
              mossInputs ivyInputs InsertOk InsertOk
              eq_refl eq_refl eq_refl eq_refl eq_refl)
    as (item1 & item2 & H1 & H2 & H3 & _).
  exists item1, item2. exact (conj H1 (conj H2 H3)).
Defined.

(** *** What one event does to the list and to the inserts *)

Lemma removeNth_middle {A : Type} (l1 l2 : list A) (x : A) :
  removeNth (List.length l1) (l1 ++ x :: l2) = l1 ++ l2.
Proof.
  unfold removeNth.
  rewrite firstn_app, Nat.sub_diag, firstn_all, firstn_O, app_nil_r.
  rewrite skipn_app, skipn_all2 by lia.
  replace (S (List.length l1) - List.length l1) with 1 by lia.
  reflexivity.
Qed.

Lemma removeNth_perm {A : Type} (n : nat) (l : list A) (x : A) :
  nth_error l n = Some x -> Permutation (x :: removeNth n l) l.
Proof.
  intro H. apply nth_error_split in H. destruct H as (l1 & l2 & -> & <-).
  rewrite removeNth_middle. apply Permutation_middle.
Qed.

(** An event leaves the list and the inserts alone, or issues one insert,
    or appends the record of one settled insert. *)
Lemma step_cases (st : State) (e : Event) :
  (localImages (step st e) = localImages st
   /\ awaiting (step st e) = awaiting st
   /\ inserted (step st e) = inserted st)
  \/ (exists item,
        localImages (step st e) = localImages st
        /\ awaiting (step st e) = awaiting st ++ [item]
        /\ inserted (step st e) = inserted st ++ [item])
  \/ (exists n result item,
        e = InsertSettled n result
        /\ nth_error (awaiting st) n = Some item
        /\ localImages (step st e) = localImages st ++ [item]
        /\ awaiting (step st e) = removeNth n (awaiting st)
        /\ inserted (step st e) = inserted st).
Proof.
  destruct e as [| | data | n result]; cbn [step].
  - left. repeat split.
  - left. repeat split.
  - destruct (isOpen st); [| left; repeat split].
    unfold handleSubmit. destruct (validate data); [| left; repeat split].
    unfold onSubmit. destruct (negb (Inputs.key data =? "on")).
    + left. repeat split.
    + right; left. eexists. repeat split.
  - destruct (nth_error (awaiting st) n) as [item |] eqn:E.
    + right; right. exists n, result, item. repeat split. exact E.
    + left. repeat split.
Qed.

Lemma step_extends (st : State) (e : Event) :
  exists suffix,
    localImages (step st e) = localImages st ++ suffix
    /\ List.length suffix <= 1.
Proof.
  destruct (step_cases st e)
    as [(H & _) | [(item & H & _) | (n & r & item & _ & _ & H & _)]].
  - exists []. rewrite app_nil_r. split; [exact H | cbn; lia].
  - exists []. rewrite app_nil_r. split; [exact H | cbn; lia].
  - exists [item]. split; [exact H | cbn; lia].
Qed.

(** The records appended so far, with those still awaited, are the records
    inserted so far. *)
Lemma step_keeps_inserted (images : list Image.t) (st : State) (e : Event) :
  (exists appended, localImages st = images ++ appended
                    /\ Permutation (appended ++ awaiting st) (inserted st)) ->
  exists appended, localImages (step st e) = images ++ appended
                   /\ Permutation (appended ++ awaiting (step st e))
                        (inserted (step st e)).
Proof.
  intros (app & Hl & Hp).
  destruct (step_cases st e)
    as [(H1 & H2 & H3)
       | [(item & H1 & H2 & H3) | (n & r & item & _ & Hn & H1 & H2 & H3)]];
    rewrite H1, H2, H3.
  - exists app. split; assumption.
  - exists app. split; [assumption |].
    rewrite app_assoc. now apply Permutation_app_tail.
  - exists (app ++ [item]). split; [now rewrite Hl, app_assoc |].
    rewrite <- Hp, <- app_assoc. apply Permutation_app_head.
    cbn. now apply removeNth_perm.
Qed.

Lemma step_keeps_order (images : list Image.t) (st : State) (e : Event) :
  inOrder [e] = true ->
  (exists appended, localImages st = images ++ appended
                    /\ appended ++ awaiting st = inserted st) ->
  exists appended, localImages (step st e) = images ++ appended
                   /\ appended ++ awaiting (step st e) = inserted (step st e).
Proof.
  intros He (app & Hl & Hp).
  destruct (step_cases st e)
    as [(H1 & H2 & H3)
       | [(item & H1 & H2 & H3) | (n & r & item & -> & Hn & H1 & H2 & H3)]];
    rewrite H1, H2, H3.
  - exists app. split; assumption.
  - exists app. split; [assumption |].
    now rewrite app_assoc, Hp.
  - unfold inOrder in He. cbn [forallb] in He.
    rewrite andb_true_r in He. apply Nat.eqb_eq in He. subst n.
    exists (app ++ [item]). split; [now rewrite Hl, app_assoc |].
    destruct (awaiting st) as [| x aw]; [discriminate |].
    cbn in Hn. injection Hn as ->.
    rewrite <- Hp, <- app_assoc. reflexivity.
Qed.

Lemma run_keeps_inserted (images : list Image.t) (evs : list Event) :
  forall st,
    (exists appended, localImages st = images ++ appended
                      /\ Permutation (appended ++ awaiting st) (inserted st)) ->
    exists appended, localImages (run st evs) = images ++ appended
                     /\ Permutation (appended ++ awaiting (run st evs))
                          (inserted (run st evs)).
Proof.
  induction evs as [| e evs IH]; intros st H; [exact H |].
  apply (IH (step st e)). now apply step_keeps_inserted.
Qed.

Lemma run_keeps_order (images : list Image.t) (evs : list Event) :
  inOrder evs = true ->
  forall st,
    (exists appended, localImages st = images ++ appended
                      /\ appended ++ awaiting st = inserted st) ->
    exists appended, localImages (run st evs) = images ++ appended
                     /\ appended ++ awaiting (run st evs)
                        = inserted (run st evs).
Proof.
  induction evs as [| e evs IH]; intros Hord st H; [exact H |].
  unfold inOrder in Hord. cbn [forallb] in Hord.
  apply andb_true_iff in Hord. destruct Hord as [He Hevs].
  apply (IH Hevs (step st e)). apply step_keeps_order; [| exact H].
  unfold inOrder. cbn [forallb]. now rewrite andb_true_r.
Qed.

Lemma step_appends_settled (st : State) (e : Event) :
  localImages (step st e) = localImages st ++ settledBy st e.
Proof.
  destruct e as [| | data | n result]; cbn [step settledBy].
  - cbn. now rewrite app_nil_r.
  - cbn. now rewrite app_nil_r.
  - rewrite app_nil_r. destruct (isOpen st); [| reflexivity].
    unfold handleSubmit. destruct (validate data); [| reflexivity].
    unfold onSubmit. now destruct (negb (Inputs.key data =? "on")).
  - destruct (nth_error (awaiting st) n); [reflexivity |].
    now rewrite app_nil_r.
Qed.

Lemma step_inserts_submitted (st : State) (e : Event) :
  inserted (step st e) = inserted st ++ submittedBy st e.
Proof.
  destruct e as [| | data | n result]; cbn [step submittedBy].
  - cbn. now rewrite app_nil_r.
  - cbn. now rewrite app_nil_r.
  - destruct (isOpen st); cbn [andb]; [| now rewrite app_nil_r].
    unfold handleSubmit. destruct (validate data); cbn [andb];
      [| cbn; now rewrite app_nil_r].
    unfold onSubmit. destruct (Inputs.key data =? "on"); cbn;
      [reflexivity | now rewrite app_nil_r].
  - rewrite app_nil_r. now destruct (nth_error (awaiting st) n).
Qed.

Lemma settledBy_short (st : State) (e : Event) :
  List.length (settledBy st e) <= 1.
Proof.
  destruct e as [| | data | n result]; cbn; try lia.
  destruct (nth_error (awaiting st) n); cbn; lia.
Qed.

(** A part of the state that each event extends by what [f] yields holds,
    after a session, what it held before followed by what the events
    yielded, in their order. *)
Lemma run_collect (part : State -> list Image.t)
    (f : State -> Event -> list Image.t) :
  (forall st e, part (step st e) = part st ++ f st e) ->
  forall evs st, part (run st evs) = part st ++ collect f st evs.
Proof.
  intros Hstep evs. induction evs as [| e evs IH]; intro st.
  - cbn. now rewrite app_nil_r.
  - change (run st (e :: evs)) with (run (step st e) evs).
    rewrite IH, Hstep. cbn [collect]. now rewrite app_assoc.
Qed.

(** C4.  At every point of a session started on [images], the view shows
    one tile per record of the list, in list order.  The list is [images]
    followed by the records whose inserts have settled, in the order in
    which they settled.  The records inserted are those submitted, in
    submission order; the settled ones with those still awaited are exactly
    the inserted ones, and are in submission order whenever no insert
    settles before an older one.  An event only ever appends to the list:
    the record whose insert it settles, and nothing otherwise. *)
Theorem display_order_invariant (images : list Image.t) (evs : list Event) :
  let st := run (initialState images) evs in
  let settled := settledRecords (initialState images) evs in
  Gallery (Some (localImages st))
  = Normal {| title := Title;
              uploader := {| amount := List.length (localImages st) |};
              grid := Tiles (map tileOf (localImages st)) |}
  /\ map image (map tileOf (localImages st)) = localImages st
  /\ localImages st = images ++ settled
  /\ inserted st = submittedRecords (initialState images) evs
  /\ Permutation (settled ++ awaiting st) (inserted st)
  /\ (inOrder evs = true -> settled ++ awaiting st = inserted st)
  /\ (forall e,
        localImages (step st e) = localImages st ++ settledBy st e
        /\ List.length (settledBy st e) <= 1).
Proof.
  intros st settled.
  assert (Hl : localImages st = images ++ settled).
  { exact (run_collect localImages settledBy step_appends_settled evs
             (initialState images)). }
  split; [apply Gallery_array |].
  split; [apply tiles_are_the_records |].
  split; [exact Hl |].
  split.
  { exact (run_collect inserted submittedBy step_inserts_submitted evs
             (initialState images)). }
  assert (H0 : exists appended,
             localImages (initialState images) = images ++ appended
             /\ appended ++ awaiting (initialState images)
                = inserted (initialState images)).
  { exists []. cbn. now rewrite app_nil_r. }
  split.
  { destruct (run_keeps_inserted images evs (initialState images))
      as (app & Hl' & Hp).
    { destruct H0 as (a & Ha & Hb). exists a. split; [exact Ha |].
      now rewrite Hb. }
    fold st in Hl', Hp. rewrite Hl in Hl'. apply app_inv_head in Hl'.
    now rewrite Hl'. }
  split.
  { intro Hord.
    destruct (run_keeps_order images evs Hord (initialState images) H0)
      as (app & Hl' & Hp).
    fold st in Hl', Hp. rewrite Hl in Hl'. apply app_inv_head in Hl'.
    now rewrite Hl'. }
  intro e. split; [apply step_appends_settled | apply settledBy_short].
Qed.

Lemma display_order_invariant_witness :
  localImages (run (initialState [fern]) overlappingSession)
  = [fern; newItem 1 ivyInputs; newItem 1 mossInputs]
  /\ inserted (run (initialState [fern]) overlappingSession)
     = [newItem 1 mossInputs; newItem 1 ivyInputs]
  /\ settledRecords (initialState [fern])
       [ClickUpload; SubmitForm mossInputs; SubmitForm ivyInputs;
        InsertSettled 0 InsertOk; InsertSettled 0 InsertOk]
     = inserted
         (run (initialState [fern])
            [ClickUpload; SubmitForm mossInputs; SubmitForm ivyInputs;
             InsertSettled 0 InsertOk; InsertSettled 0 InsertOk]).
Proof.
  destruct (display_order_invariant [fern] overlappingSession)
    as (_ & _ & Hl & Hi & _).
  destruct (display_order_invariant [fern]
              [ClickUpload; SubmitForm mossInputs; SubmitForm ivyInputs;
               InsertSettled 0 InsertOk; InsertSettled 0 InsertOk])
    as (_ & _ & _ & _ & _ & Hord & _).
  split; [exact Hl |]. split; [exact Hi |].
  exact (Hord eq_refl).
Defined.

(** C4, as stated, fails when two inserts are outstanding and the younger
    settles first: the records are inserted in submission order and
    displayed in the other order. *)
Lemma overlapping_submissions_display_out_of_order :
  let st := run (initialState [fern]) overlappingSession in
  inserted st = [newItem 1 mossInputs; newItem 1 ivyInputs]
  /\ localImages st = [fern; newItem 1 ivyInputs; newItem 1 mossInputs]
  /\ ~ (exists k, localImages st = [fern] ++ firstn k (inserted st)).
Proof.
  cbv zeta. split; [reflexivity |]. split; [reflexivity |].
  intros [k H].
  change (run (initialState [fern]) overlappingSession)
    with {| localImages := [fern; newItem 1 ivyInputs; newItem 1 mossInputs];
            isOpen := false; errors := []; awaiting := [];
            inserted := [newItem 1 mossInputs; newItem 1 ivyInputs] |} in H.
  cbn [localImages inserted] in H.
  destruct k as [| [| k]]; discriminate H.
Qed.

(** ** The pattern of [imageSrc] *)

Lemma Lit_ignoresPrev (c : ascii) : ignoresPrev (Lit c).
Proof. intros p1 p2 s k. reflexivity. Qed.

Lemma Class_ignoresPrev (items : list ClassItem) : ignoresPrev (Class items).
Proof. intros p1 p2 s k. reflexivity. Qed.

Lemma Cat_ignoresPrev (r1 r2 : Regex) :
  ignoresPrev r1 -> ignoresPrev (Cat r1 r2).
Proof. intros H p1 p2 s k. cbn [matchRegex]. apply H. Qed.

Lemma Maybe_Cat_ignoresPrev (r1 r2 : Regex) :
  ignoresPrev r1 -> ignoresPrev r2 -> ignoresPrev (Cat (Maybe r1) r2).
Proof.
  intros H1 H2 p1 p2 s k. cbn [matchRegex].
  now rewrite (H1 p1 p2), (H2 p1 p2).
Qed.

Lemma Repeat_unfold (lo hi : nat) (r : Regex) (prev : option ascii)
    (s : string) (k : option ascii -> string -> bool) :
  matchRegex (Repeat lo (S hi) r) prev s k
  = matchRegex r prev s
      (fun prev' s' => matchRegex (Repeat (Nat.pred lo) hi r) prev' s' k)
    || match lo with O => k prev s | S _ => false end.
Proof. reflexivity. Qed.

Lemma Repeat_ignoresPrev (lo hi : nat) (r : Regex) :
  ignoresPrev r -> ignoresPrev (Repeat (S lo) (S hi) r).
Proof.
  intros H p1 p2 s k. rewrite !Repeat_unfold. now rewrite (H p1 p2).
Qed.

Lemma imageSrcPattern_ignoresPrev : ignoresPrev imageSrcPattern.
Proof.
  apply Maybe_Cat_ignoresPrev.
  - apply Cat_ignoresPrev, Cat_ignoresPrev, Lit_ignoresPrev.
  - apply Maybe_Cat_ignoresPrev.
    + apply Cat_ignoresPrev, Lit_ignoresPrev.
    + apply Cat_ignoresPrev, Repeat_ignoresPrev, Class_ignoresPrev.
Qed.

Lemma searchFrom_unfold (r : Regex) (prev : option ascii) (s : string) :
  searchFrom r prev s
  = matchRegex r prev s (fun _ _ => true)
    || match s with
       | String c s' => searchFrom r (Some c) s'
       | EmptyString => false
       end.
Proof. destruct s; reflexivity. Qed.

Lemma searchFrom_ignoresPrev (p1 p2 : option ascii) (s : string) :
  searchFrom imageSrcPattern p1 s = searchFrom imageSrcPattern p2 s.
Proof.
  rewrite (searchFrom_unfold imageSrcPattern p1),
          (searchFrom_unfold imageSrcPattern p2).
  now rewrite (imageSrcPattern_ignoresPrev p1 p2).
Qed.

Lemma match_survives_prefix (before s : string) :
  stringMatches s imageSrcPattern = true ->
  stringMatches (String.append before s) imageSrcPattern = true.
Proof.
  unfold stringMatches. intro H.
  induction before as [| c before IH]; [exact H |].
  cbn [String.append]. rewrite searchFrom_unfold.
  rewrite (searchFrom_ignoresPrev (Some c) None), IH.
  apply orb_true_r.
Qed.

(** C8, as stated, names [not a.url] as an input that passes: it does not.
    The only dot is preceded by a single character of the host class, where
    the pattern asks for two, so the submission is blocked. *)
Lemma not_a_dot_url_is_rejected :
  stringMatches "not a.url" imageSrcPattern = false
  /\ validate (Inputs.mk "not a.url" "" "" "on")
     = [(imageSrcField, patternError)]
  /\ step openSession (SubmitForm (Inputs.mk "not a.url" "" "" "on"))
     = setErrors [(imageSrcField, patternError)] openSession.
Proof.
  split; [vm_compute; reflexivity |].
  split; vm_compute; reflexivity.
Qed.

(** C8.  The pattern is not anchored: any text may precede a match, and a
    match need not reach the end of the input.  So inputs that are not URLs
    as a whole, such as [not ab.url], pass validation, and with key [on] the
    submission proceeds to the insert. *)
Theorem pattern_is_unanchored :
  (forall before s : string,
      stringMatches s imageSrcPattern = true ->
      stringMatches (String.append before s) imageSrcPattern = true)
  /\ stringMatches "ab.url" imageSrcPattern = true
  /\ stringMatches "not ab.url" imageSrcPattern = true
  /\ stringMatches "not ab.url at all" imageSrcPattern = true
  /\ validate (Inputs.mk "not ab.url" "" "" "on") = []
  /\ (forall st : State,
        isOpen st = true ->
        step st (SubmitForm (Inputs.mk "not ab.url" "" "" "on"))
        = insert (Image.mk (Z.of_nat (List.length (localImages st)) + 1)
                    "not ab.url" "plant from anonymous" "anonymous")
            (setErrors [] st)).
Proof.
  split; [exact match_survives_prefix |].
  assert (Hvalid : validate (Inputs.mk "not ab.url" "" "" "on") = [])
    by (vm_compute; reflexivity).
  repeat split; try (vm_compute; reflexivity).
  intros st Hopen.
  exact (proj1 (accepted_submission st (Inputs.mk "not ab.url" "" "" "on")
                  InsertOk Hopen Hvalid eq_refl)).
Qed.

Lemma pattern_is_unanchored_witness :
  stringMatches (String.append "see " "ab.url") imageSrcPattern = true
  /\ inserted (step openSession
                 (SubmitForm (Inputs.mk "not ab.url" "" "" "on")))
     = [Image.mk 2 "not ab.url" "plant from anonymous" "anonymous"].
Proof.
  destruct pattern_is_unanchored as (Hpre & Hab & _ & _ & _ & Hstep).
  split.
  - exact (Hpre "see " "ab.url" Hab).
  - rewrite (Hstep openSession eq_refl). reflexivity.
Defined.

(** * Further properties *)

(** ** Strings *)

Lemma append_assoc (a b c : string) :
  ((a ++ b) ++ c = a ++ (b ++ c))%string.
Proof. induction a as [| x a IH]; cbn; [reflexivity | now rewrite IH]. Qed.

Lemma append_empty_r (a : string) : (a ++ "")%string = a.
Proof. induction a as [| x a IH]; cbn; [reflexivity | now rewrite IH]. Qed.

Lemma length_append (a b : string) :
  String.length (a ++ b)%string = String.length a + String.length b.
Proof. induction a as [| x a IH]; cbn; [reflexivity | now rewrite IH]. Qed.

Lemma hasChar_append (c : ascii) (a b : string) :
  hasChar c (a ++ b)%string = hasChar c a || hasChar c b.
Proof.
  induction a as [| x a IH]; cbn; [reflexivity |].
  now rewrite IH, orb_assoc.
Qed.

Lemma lastChar_nonempty (p : ascii -> bool) (w : string) :
  forall prev,
    allChars p w = true -> 1 <= String.length w ->
    exists c, lastChar prev w = Some c /\ p c = true.
Proof.
  induction w as [| x w IH]; intros prev Hall Hlen; [cbn in Hlen; lia |].
  cbn in Hall. apply andb_true_iff in Hall. destruct Hall as [Hx Hw].
  destruct w as [| y w].
  - exists x. split; [reflexivity | exact Hx].
  - apply (IH (Some x) Hw). cbn. lia.
Qed.

Lemma lower_is_word (c : ascii) : isLowerChar c = true -> isWordChar c = true.
Proof.
  unfold isLowerChar, isWordChar, inClass. cbn [existsb].
  rewrite orb_false_r. now intros ->.
Qed.

(** ** The matcher, construct by construct *)

Lemma matchChar_inv (p : ascii -> bool) (s : string)
    (k : option ascii -> string -> bool) :
  matchChar p s k = true ->
  exists c s', s = String c s' /\ p c = true /\ k (Some c) s' = true.
Proof.
  destruct s as [| c s']; cbn; [discriminate |].
  destruct (p c) eqn:E; [| discriminate].
  intro H. now exists c, s'.
Qed.

Lemma Cat_unfold (r1 r2 : Regex) (prev : option ascii) (s : string)
    (k : option ascii -> string -> bool) :
  matchRegex (Cat r1 r2) prev s k
  = matchRegex r1 prev s (fun prev' s' => matchRegex r2 prev' s' k).
Proof. reflexivity. Qed.

Lemma Maybe_unfold (r : Regex) (prev : option ascii) (s : string)
    (k : option ascii -> string -> bool) :
  matchRegex (Maybe r) prev s k = matchRegex r prev s k || k prev s.
Proof. reflexivity. Qed.

Lemma Repeat_zero (lo : nat) (r : Regex) (prev : option ascii) (s : string)
    (k : option ascii -> string -> bool) :
  matchRegex (Repeat lo 0 r) prev s k
  = match lo with O => k prev s | S _ => false end.
Proof. reflexivity. Qed.

Lemma Star_unfold (r : Regex) (prev : option ascii) (s : string)
    (k : option ascii -> string -> bool) :
  matchRegex (Star r) prev s k = starLoop r k (String.length s) prev s.
Proof. reflexivity. Qed.

Lemma starLoop_S (r : Regex) (k : option ascii -> string -> bool)
    (fuel : nat) (prev : option ascii) (s : string) :
  starLoop r k (S fuel) prev s
  = matchRegex r prev s
      (fun prev' s' =>
         if Nat.ltb (String.length s') (String.length s)
         then starLoop r k fuel prev' s' else false)
    || k prev s.
Proof. reflexivity. Qed.

Lemma Star_skip (r : Regex) (prev : option ascii) (s : string)
    (k : option ascii -> string -> bool) :
  k prev s = true -> matchRegex (Star r) prev s k = true.
Proof.
  intro H. rewrite Star_unfold.
  destruct (String.length s); [exact H |].
  rewrite starLoop_S, H. apply orb_true_r.
Qed.

(** Whatever [r] is, the continuation is entered on a suffix of the input. *)
Lemma matchRegex_suffix (r : Regex) :
  forall prev s k,
    matchRegex r prev s k = true ->
    exists prev' w rest, s = (w ++ rest)%string /\ k prev' rest = true.
Proof.
  induction r as [| c | | items | | r1 IH1 r2 IH2 | r IH | lo hi r IH | r IH];
    intros prev s k H.
  - exists prev, "", s. now split.
  - apply matchChar_inv in H. destruct H as (x & s' & -> & _ & H).
    exists (Some x), (String x ""), s'. now split.
  - apply matchChar_inv in H. destruct H as (x & s' & -> & _ & H).
    exists (Some x), (String x ""), s'. now split.
  - apply matchChar_inv in H. destruct H as (x & s' & -> & _ & H).
    exists (Some x), (String x ""), s'. now split.
  - cbn [matchRegex] in H.
    destruct (xorb (wordBefore prev) (wordAfter s)); [| discriminate].
    exists prev, "", s. now split.
  - rewrite Cat_unfold in H. apply IH1 in H.
    destruct H as (p1 & w1 & s1 & -> & H). apply IH2 in H.
    destruct H as (p2 & w2 & s2 & -> & H).
    exists p2, (w1 ++ w2)%string, s2. split; [now rewrite append_assoc | exact H].
  - rewrite Maybe_unfold in H. apply orb_true_iff in H. destruct H as [H | H].
    + now apply IH in H.
    + exists prev, "", s. now split.
  - revert lo prev s H. induction hi as [| hi IHhi]; intros lo prev s H.
    + rewrite Repeat_zero in H. destruct lo; [| discriminate].
      exists prev, "", s. now split.
    + rewrite Repeat_unfold in H. apply orb_true_iff in H. destruct H as [H | H].
      * apply IH in H. destruct H as (p1 & w1 & s1 & -> & H).
        apply IHhi in H. destruct H as (p2 & w2 & s2 & -> & H).
        exists p2, (w1 ++ w2)%string, s2.
        split; [now rewrite append_assoc | exact H].
      * destruct lo; [| discriminate]. exists prev, "", s. now split.
  - rewrite Star_unfold in H. remember (String.length s) as fuel eqn:E.
    clear E. revert prev s H.
    induction fuel as [| fuel IHf]; intros prev s H.
    + exists prev, "", s. now split.
    + rewrite starLoop_S in H. apply orb_true_iff in H. destruct H as [H | H].
      * apply IH in H. destruct H as (p1 & w1 & s1 & -> & H).
        destruct (Nat.ltb (String.length s1) (String.length (w1 ++ s1)));
          [| discriminate].
        apply IHf in H. destruct H as (p2 & w2 & s2 & -> & H).
        exists p2, (w1 ++ w2)%string, s2.
        split; [now rewrite append_assoc | exact H].
      * exists prev, "", s. now split.
Qed.

(** A bounded repetition of a class reads a run of class characters whose
    length is within the bounds. *)
Lemma Repeat_Class_inv (items : list ClassItem) (hi : nat) :
  forall lo prev s k,
    matchRegex (Repeat lo hi (Class items)) prev s k = true ->
    exists w rest,
      s = (w ++ rest)%string
      /\ allChars (inClass items) w = true
      /\ lo <= String.length w <= hi
      /\ k (lastChar prev w) rest = true.
Proof.
  induction hi as [| hi IH]; intros lo prev s k H.
  - rewrite Repeat_zero in H. destruct lo; [| discriminate].
    exists "", s. cbn. repeat split; auto.
  - rewrite Repeat_unfold in H. apply orb_true_iff in H. destruct H as [H | H].
    + apply matchChar_inv in H. destruct H as (c & s' & -> & Hc & H).
      apply IH in H. destruct H as (w & rest & -> & Hall & Hlen & H).
      exists (String c w), rest. cbn. rewrite Hc, Hall.
      repeat split; auto; lia.
    + destruct lo; [| discriminate]. exists "", s. cbn.
      repeat split; auto; lia.
Qed.

Lemma Repeat_Class_intro (items : list ClassItem) (w : string) :
  forall hi lo prev rest k,
    allChars (inClass items) w = true ->
    lo <= String.length w <= hi ->
    k (lastChar prev w) rest = true ->
    matchRegex (Repeat lo hi (Class items)) prev (w ++ rest)%string k = true.
Proof.
  induction w as [| c w IH]; intros hi lo prev rest k Hall Hlen Hk.
  - cbn in Hlen. assert (lo = 0) by lia. subst lo. cbn in Hk.
    destruct hi; [rewrite Repeat_zero | rewrite Repeat_unfold]; cbn;
      rewrite Hk; [reflexivity | apply orb_true_r].
  - cbn in Hall, Hlen. apply andb_true_iff in Hall. destruct Hall as [Hc Hw].
    destruct hi as [| hi]; [lia |].
    rewrite Repeat_unfold. apply orb_true_iff. left.
    cbn [String.append matchRegex matchChar]. rewrite Hc.
    apply IH; [exact Hw | lia | exact Hk].
Qed.

Lemma Lit_unfold (c : ascii) (prev : option ascii) (s : string)
    (k : option ascii -> string -> bool) :
  matchRegex (Lit c) prev s k = matchChar (Ascii.eqb c) s k.
Proof. reflexivity. Qed.

Lemma WordBoundary_unfold (prev : option ascii) (s : string)
    (k : option ascii -> string -> bool) :
  matchRegex WordBoundary prev s k
  = if xorb (wordBefore prev) (wordAfter s) then k prev s else false.
Proof. reflexivity. Qed.

Lemma Maybe_Cat_inv (r1 r2 : Regex) (prev : option ascii) (s : string)
    (k : option ascii -> string -> bool) :
  matchRegex (Cat (Maybe r1) r2) prev s k = true ->
  exists prev' w rest,
    s = (w ++ rest)%string /\ matchRegex r2 prev' rest k = true.
Proof.
  rewrite Cat_unfold, Maybe_unfold. intro H.
  apply orb_true_iff in H. destruct H as [H | H].
  - apply matchRegex_suffix in H. exact H.
  - exists prev, "", s. now split.
Qed.

Lemma Maybe_Cat_skip (r1 r2 : Regex) (prev : option ascii) (s : string)
    (k : option ascii -> string -> bool) :
  matchRegex r2 prev s k = true ->
  matchRegex (Cat (Maybe r1) r2) prev s k = true.
Proof.
  intro H. rewrite Cat_unfold, Maybe_unfold, H. apply orb_true_r.
Qed.

Lemma urlCore_iff (host tld rest : string) :
  urlCore host tld rest = true <->
  allChars isHostChar host = true
  /\ 2 <= String.length host <= 256
  /\ allChars isLowerChar tld = true
  /\ 2 <= String.length tld <= 6
  /\ wordAfter rest = false.
Proof.
  unfold urlCore. rewrite !andb_true_iff, !Nat.leb_le, negb_true_iff.
  tauto.
Qed.

Lemma after_lower_run (prev : option ascii) (tld : string) :
  allChars isLowerChar tld = true -> 2 <= String.length tld ->
  wordBefore (lastChar prev tld) = true.
Proof.
  intros Hall Hlen.
  destruct (lastChar_nonempty isLowerChar tld prev Hall) as (c & -> & Hc);
    [lia |].
  now apply lower_is_word.
Qed.

(** The part of the pattern after the two optional prefixes. *)
Lemma core_inv (tail : Regex) (prev : option ascii) (s : string)
    (k : option ascii -> string -> bool) :
  matchRegex
    (Cat (Repeat 2 256 hostClass)
       (Cat (Lit ".")
          (Cat (Repeat 2 6 (Class [Span "a" "z"]))
             (Cat WordBoundary tail)))) prev s k = true ->
  exists host tld rest,
    s = (host ++ "." ++ tld ++ rest)%string /\ urlCore host tld rest = true.
Proof.
  rewrite Cat_unfold. unfold hostClass. intro H.
  apply Repeat_Class_inv in H.
  destruct H as (host & s1 & -> & Hhost & Hhlen & H).
  rewrite Cat_unfold, Lit_unfold in H. apply matchChar_inv in H.
  destruct H as (c & s2 & -> & Hc & H). apply Ascii.eqb_eq in Hc. subst c.
  rewrite Cat_unfold in H. apply Repeat_Class_inv in H.
  destruct H as (tld & rest & -> & Htld & Htlen & H).
  rewrite Cat_unfold, WordBoundary_unfold in H.
  rewrite (after_lower_run (Some "."%char) tld Htld) in H by lia.
  destruct (wordAfter rest) eqn:Hafter; [discriminate |].
  exists host, tld, rest. split; [reflexivity |].
  apply urlCore_iff. repeat split; try assumption; lia.
Qed.

Lemma pattern_match_inv (prev : option ascii) (s : string) :
  matchRegex imageSrcPattern prev s (fun _ _ => true) = true ->
  exists pre host tld rest,
    s = (pre ++ host ++ "." ++ tld ++ rest)%string
    /\ urlCore host tld rest = true.
Proof.
  unfold imageSrcPattern. cbn [seq]. intro H.
  apply Maybe_Cat_inv in H. destruct H as (p1 & w1 & s1 & -> & H).
  apply Maybe_Cat_inv in H. destruct H as (p2 & w2 & s2 & -> & H).
  apply core_inv in H. destruct H as (host & tld & rest & -> & Hcore).
  exists (w1 ++ w2)%string, host, tld, rest.
  split; [now rewrite append_assoc | exact Hcore].
Qed.

Lemma pattern_match_intro (prev : option ascii) (host tld rest : string) :
  urlCore host tld rest = true ->
  matchRegex imageSrcPattern prev (host ++ "." ++ tld ++ rest)%string
    (fun _ _ => true) = true.
Proof.
  intro H. apply urlCore_iff in H.
  destruct H as (Hhost & Hhlen & Htld & Htlen & Hafter).
  unfold imageSrcPattern. cbn [seq].
  apply Maybe_Cat_skip, Maybe_Cat_skip.
  rewrite Cat_unfold. unfold hostClass.
  apply Repeat_Class_intro; [exact Hhost | exact Hhlen |].
  rewrite Cat_unfold, Lit_unfold. cbn [String.append matchChar].
  rewrite Ascii.eqb_refl, Cat_unfold.
  apply Repeat_Class_intro; [exact Htld | exact Htlen |].
  rewrite Cat_unfold, WordBoundary_unfold.
  rewrite (after_lower_run (Some "."%char) tld Htld), Hafter by lia.
  cbn [xorb]. rewrite Cat_unfold. now apply Star_skip.
Qed.

Lemma searchFrom_inv (r : Regex) (s : string) :
  forall prev,
    searchFrom r prev s = true ->
    exists prev' pre rest,
      s = (pre ++ rest)%string
      /\ matchRegex r prev' rest (fun _ _ => true) = true.
Proof.
  induction s as [| c s IH]; intros prev H; rewrite searchFrom_unfold in H;
    apply orb_true_iff in H; destruct H as [H | H]; try discriminate.
  - exists prev, "", "". now split.
  - exists prev, "", (String c s). now split.
  - apply IH in H. destruct H as (p & pre & rest & -> & H).
    exists p, (String c pre), rest. now split.
Qed.

Lemma stringMatches_inv (s : string) :
  stringMatches s imageSrcPattern = true ->
  exists pre host tld rest,
    s = (pre ++ host ++ "." ++ tld ++ rest)%string
    /\ urlCore host tld rest = true.
Proof.
  unfold stringMatches. intro H. apply searchFrom_inv in H.
  destruct H as (p & pre & s' & -> & H). apply pattern_match_inv in H.
  destruct H as (pre' & host & tld & rest & -> & Hcore).
  exists (pre ++ pre')%string, host, tld, rest.
  split; [now rewrite append_assoc | exact Hcore].
Qed.

Lemma stringMatches_intro (pre host tld rest : string) :
  urlCore host tld rest = true ->
  stringMatches (pre ++ host ++ "." ++ tld ++ rest)%string imageSrcPattern
  = true.
Proof.
  intro Hcore. apply match_survives_prefix. unfold stringMatches.
  rewrite searchFrom_unfold, (pattern_match_intro None host tld rest Hcore).
  reflexivity.
Qed.

(** ** What the pattern of [imageSrc] accepts *)

(** X1.  An input passes the pattern exactly when it contains, anywhere,
    two to 256 host characters, a dot and two to six lower-case letters not
    followed by a word character.  Scheme, [www.] and path add nothing to
    the test. *)
Theorem imageSrcPattern_characterized (s : string) :
  stringMatches s imageSrcPattern = true <->
  exists pre host tld rest,
    s = (pre ++ host ++ "." ++ tld ++ rest)%string
    /\ urlCore host tld rest = true.
Proof.
  split.
  - apply stringMatches_inv.
  - intros (pre & host & tld & rest & -> & Hcore).
    now apply stringMatches_intro.
Qed.

Lemma imageSrcPattern_characterized_witness :
  stringMatches "see my-site.org/a b" imageSrcPattern = true.
Proof.
  apply (proj2 (imageSrcPattern_characterized "see my-site.org/a b")).
  exists "see ", "my-site", "org", "/a b". split; reflexivity.
Defined.

(** X2.  An [imageSrc] with no dot, or with fewer than five characters,
    never reaches the handler: the submission is blocked whatever the other
    inputs are. *)
Theorem dotless_or_short_imageSrc_is_blocked
    (st : State) (data : Inputs.t) (onValid : Inputs.t -> State -> State) :
  hasChar "." (Inputs.imageSrc data) = false
  \/ String.length (Inputs.imageSrc data) < 5 ->
  stringMatches (Inputs.imageSrc data) imageSrcPattern = false
  /\ validate data <> []
  /\ handleSubmit onValid data st = setErrors (validate data) st.
Proof.
  intro H.
  assert (Hno : stringMatches (Inputs.imageSrc data) imageSrcPattern = false).
  { destruct (stringMatches (Inputs.imageSrc data) imageSrcPattern) eqn:E;
      [| reflexivity].
    apply stringMatches_inv in E.
    destruct E as (pre & host & tld & rest & E & Hcore).
    apply urlCore_iff in Hcore.
    destruct Hcore as (_ & Hhlen & _ & Htlen & _).
    rewrite E in H. destruct H as [H | H].
    - rewrite !hasChar_append in H. cbn in H.
      rewrite !orb_true_r in H. discriminate.
    - rewrite !length_append in H. cbn in H. lia. }
  assert (Hinvalid : validate data <> []).
  { intro Hnil. apply validate_nil in Hnil. destruct Hnil as [Hsrc _].
    apply imageSrc_valid in Hsrc. destruct Hsrc as [_ Hm]. congruence. }
  split; [exact Hno |]. split; [exact Hinvalid |].
  now apply handleSubmit_invalid.
Qed.

Lemma dotless_or_short_imageSrc_is_blocked_witness :
  handleSubmit (onSubmit 1) (Inputs.mk "a.io" "" "" "on") openSession
  = setErrors [(imageSrcField, patternError)] openSession.
Proof.
  assert (H : hasChar "." (Inputs.imageSrc (Inputs.mk "a.io" "" "" "on")) = false
              \/ String.length (Inputs.imageSrc (Inputs.mk "a.io" "" "" "on")) < 5).
  { right. cbn. lia. }
  exact (proj2 (proj2 (dotless_or_short_imageSrc_is_blocked openSession
                         (Inputs.mk "a.io" "" "" "on") (onSubmit 1) H))).
Defined.

Lemma wordAfter_append (rest t : string) :
  wordAfter rest = false -> wordAfter t = false ->
  wordAfter (rest ++ t)%string = false.
Proof. destruct rest; cbn; auto. Qed.

(** X3.  Text added after an accepted input keeps it accepted, unless the
    text starts with a letter, a digit or an underscore. *)
Theorem match_survives_suffix (s t : string) :
  stringMatches s imageSrcPattern = true ->
  wordAfter t = false ->
  stringMatches (s ++ t)%string imageSrcPattern = true.
Proof.
  intros Hs Ht. apply stringMatches_inv in Hs.
  destruct Hs as (pre & host & tld & rest & -> & Hcore).
  replace ((pre ++ host ++ "." ++ tld ++ rest) ++ t)%string
    with (pre ++ host ++ "." ++ tld ++ (rest ++ t))%string
    by now rewrite !append_assoc.
  apply stringMatches_intro.
  apply urlCore_iff in Hcore. apply urlCore_iff.
  destruct Hcore as (H1 & H2 & H3 & H4 & H5).
  repeat split; try assumption; try lia. now apply wordAfter_append.
Qed.

Lemma match_survives_suffix_witness :
  stringMatches ("ab.url" ++ " is not a url")%string imageSrcPattern = true.
Proof.
  apply (match_survives_suffix "ab.url" " is not a url");
    vm_compute; reflexivity.
Defined.

(** ** Sessions, event by event *)

Lemma submit_cases (st : State) (data : Inputs.t) :
  (isOpen st = false /\ step st (SubmitForm data) = st)
  \/ (isOpen st = true /\ validate data <> []
      /\ step st (SubmitForm data) = setErrors (validate data) st)
  \/ (isOpen st = true /\ validate data = [] /\ Inputs.key data <> "on"
      /\ step st (SubmitForm data) = closeModal (setErrors [] st))
  \/ (isOpen st = true /\ validate data = [] /\ Inputs.key data = "on"
      /\ step st (SubmitForm data)
         = insert (newItem (List.length (localImages st)) data)
             (setErrors [] st)).
Proof.
  cbn [step]. destruct (isOpen st); [| now left].
  right. destruct (validate data) as [| e errs] eqn:Hv.
  - right. rewrite handleSubmit_valid by exact Hv.
    destruct (String.eqb_spec (Inputs.key data) "on") as [Hk | Hk].
    + right. repeat split; try assumption. now apply onSubmit_gate_open.
    + left. repeat split; try assumption. now apply onSubmit_gate_closed.
  - left. split; [reflexivity |]. split; [discriminate |].
    rewrite <- Hv. apply handleSubmit_invalid. rewrite Hv. discriminate.
Qed.

Lemma settle_some (st : State) (n : nat) (result : InsertResult)
    (item : Image.t) :
  nth_error (awaiting st) n = Some item ->
  step st (InsertSettled n result)
  = {| localImages := localImages st ++ [item];
       isOpen := false;
       errors := errors st;
       awaiting := removeNth n (awaiting st);
       inserted := inserted st |}.
Proof. intro H. cbn [step]. now rewrite H. Qed.

Lemma settle_none (st : State) (n : nat) (result : InsertResult) :
  nth_error (awaiting st) n = None ->
  step st (InsertSettled n result) = st.
Proof. intro H. cbn [step]. now rewrite H. Qed.

Lemma orElse_not_empty (a d : string) : d <> "" -> orElse a d <> "".
Proof.
  intro Hd. unfold orElse.
  destruct (String.eqb_spec a ""); [exact Hd | assumption].
Qed.

Lemma newItem_wellFormed (amount : nat) (data : Inputs.t) :
  validate data = [] -> wellFormed (newItem amount data).
Proof.
  intro Hv. apply validate_nil in Hv. destruct Hv as [Hsrc _].
  apply imageSrc_valid in Hsrc. destruct Hsrc as [_ Hm].
  unfold wellFormed, newItem. cbn.
  repeat split; try exact Hm; try (apply orElse_not_empty; discriminate).
  lia.
Qed.

Lemma step_keeps_wellFormed (st : State) (e : Event) :
  Forall wellFormed (inserted st) ->
  Forall wellFormed (inserted (step st e)).
Proof.
  intro H. destruct e as [| | data | n result]; try exact H.
  - destruct (submit_cases st data)
      as [(_ & ->) | [(_ & _ & ->) | [(_ & _ & _ & ->) | (_ & Hv & _ & ->)]]];
      try exact H.
    cbn. apply Forall_app. split; [exact H |].
    constructor; [now apply newItem_wellFormed | constructor].
  - destruct (nth_error (awaiting st) n) as [item |] eqn:E.
    + now rewrite (settle_some st n result item E).
    + now rewrite (settle_none st n result E).
Qed.

Lemma run_keeps_wellFormed (evs : list Event) :
  forall st,
    Forall wellFormed (inserted st) ->
    Forall wellFormed (inserted (run st evs)).
Proof.
  induction evs as [| e evs IH]; intros st H; [exact H |].
  apply (IH (step st e)). now apply step_keeps_wellFormed.
Qed.

(** X4.  In every session, each record passed to the store's insert, each
    record still awaited and each record appended after the initial ones
    has an [imageSrc] that passed the pattern, a non-empty name and user
    name, and a positive id. *)
Theorem only_wellFormed_records_are_added
    (images : list Image.t) (evs : list Event) :
  let st := run (initialState images) evs in
  Forall wellFormed (inserted st)
  /\ Forall wellFormed (awaiting st)
  /\ Forall wellFormed (skipn (List.length images) (localImages st)).
Proof.
  intro st.
  assert (Hins : Forall wellFormed (inserted st)).
  { apply run_keeps_wellFormed. constructor. }
  destruct (run_keeps_inserted images evs (initialState images))
    as (appended & Hl & Hp).
  { exists []. cbn. split; [now rewrite app_nil_r | constructor]. }
  fold st in Hl, Hp.
  assert (Hall : Forall wellFormed (appended ++ awaiting st)).
  { eapply Permutation_Forall; [apply Permutation_sym; exact Hp | exact Hins]. }
  apply Forall_app in Hall. destruct Hall as [Happ Haw].
  split; [exact Hins |]. split; [exact Haw |].
  rewrite Hl, skipn_app, skipn_all, Nat.sub_diag. exact Happ.
Qed.

Lemma run_without_key (evs : list Event) :
  forall st,
    usesKey evs = false -> awaiting st = [] ->
    localImages (run st evs) = localImages st
    /\ inserted (run st evs) = inserted st
    /\ awaiting (run st evs) = [].
Proof.
  induction evs as [| e evs IH]; intros st Hkey Haw; [now repeat split |].
  unfold usesKey in Hkey. cbn [existsb] in Hkey.
  apply orb_false_iff in Hkey. destruct Hkey as [He Hevs].
  assert (Hstep : localImages (step st e) = localImages st
                  /\ inserted (step st e) = inserted st
                  /\ awaiting (step st e) = []).
  { destruct e as [| | data | n result].
    - now repeat split.
    - now repeat split.
    - apply String.eqb_neq in He.
      destruct (submit_cases st data)
        as [(_ & ->) | [(_ & _ & ->) | [(_ & _ & _ & ->) | (_ & _ & Hk & _)]]];
        now repeat split.
    - rewrite settle_none; [now repeat split |].
      rewrite Haw. now destruct n. }
  destruct Hstep as (H1 & H2 & H3).
  destruct (IH (step st e) Hevs H3) as (I1 & I2 & I3).
  change (run st (e :: evs)) with (run (step st e) evs).
  rewrite I1, I2, I3, H1, H2. now repeat split.
Qed.

(** X5.  A session in which no submission carries the key [on] never
    changes the list and never calls the store's insert, whatever else is
    entered and however often. *)
Theorem without_the_key_nothing_is_added
    (images : list Image.t) (evs : list Event) :
  usesKey evs = false ->
  let st := run (initialState images) evs in
  localImages st = images /\ inserted st = [] /\ awaiting st = [].
Proof.
  intros Hkey st.
  exact (run_without_key evs (initialState images) Hkey eq_refl).
Qed.

Lemma without_the_key_nothing_is_added_witness :
  localImages (run (initialState [fern])
                 [ClickUpload; SubmitForm wrongKeyInputs;
                  ClickUpload; SubmitForm wrongKeyInputs;
                  InsertSettled 0 InsertOk]) = [fern].
Proof.
  exact (proj1 (without_the_key_nothing_is_added [fern]
                  [ClickUpload; SubmitForm wrongKeyInputs;
                   ClickUpload; SubmitForm wrongKeyInputs;
                   InsertSettled 0 InsertOk] eq_refl)).
Defined.

(** ** Ids and tile keys *)

Lemma idsFromOne_snoc (l : list Image.t) (item : Image.t) :
  idsFromOne l ->
  Image.id item = (Z.of_nat (List.length l) + 1)%Z ->
  idsFromOne (l ++ [item]).
Proof.
  unfold idsFromOne. intros Hl Hid.
  rewrite map_app, length_app, Hl. cbn [List.length map].
  rewrite Nat.add_1_r, seq_S, map_app. cbn [map].
  rewrite Hid. do 2 f_equal. lia.
Qed.

Lemma tile_keys_are_ids (l : list Image.t) :
  map tileKey (map tileOf l) = map Image.id l.
Proof. rewrite map_map. reflexivity. Qed.

Lemma idsFromOne_NoDup (l : list Image.t) :
  idsFromOne l -> NoDup (map tileKey (map tileOf l)).
Proof.
  unfold idsFromOne. intro H. rewrite tile_keys_are_ids, H.
  apply NoDup_map_NoDup_ForallPairs; [| apply seq_NoDup].
  intros x y _ _. apply Nat2Z.inj.
Qed.

Lemma run_sequential (evs : list Event) :
  forall st,
    idsFromOne (localImages st) ->
    (awaiting st = []
     \/ exists item,
          awaiting st = [item]
          /\ Image.id item = (Z.of_nat (List.length (localImages st)) + 1)%Z) ->
    sequential st evs = true ->
    idsFromOne (localImages (run st evs)).
Proof.
  induction evs as [| e evs IH]; intros st Hids Haw Hseq; [exact Hids |].
  change (run st (e :: evs)) with (run (step st e) evs).
  destruct e as [| | data | n result]; cbn [sequential] in Hseq.
  - apply IH; assumption.
  - apply IH; assumption.
  - destruct (awaiting st) as [| x aw] eqn:E; [| discriminate].
    destruct (submit_cases st data)
      as [(_ & Hs) | [(_ & _ & Hs) | [(_ & _ & _ & Hs) | (_ & _ & _ & Hs)]]];
      rewrite Hs in *; apply IH; try assumption;
      try (left; cbn; exact E).
    right. exists (newItem (List.length (localImages st)) data).
    cbn. rewrite E. now split.
  - destruct Haw as [Haw | (item & Haw & Hid)].
    + rewrite settle_none in * by (rewrite Haw; now destruct n).
      apply IH; auto.
    + destruct n as [| n].
      * rewrite (settle_some st 0 result item) in *
          by (rewrite Haw; reflexivity).
        apply IH; [| left; cbn; rewrite Haw; reflexivity | exact Hseq].
        cbn. now apply idsFromOne_snoc.
      * rewrite settle_none in * by (rewrite Haw; now destruct n).
        apply IH; eauto.
Qed.

(** X6.  When the records loaded have ids 1 to N and no form is submitted
    while an insert is outstanding, the ids of the list stay 1, 2, ... in
    display order throughout the session, so no two tiles share a key. *)
Theorem sequential_sessions_keep_keys_distinct
    (images : list Image.t) (evs : list Event) :
  idsFromOne images ->
  sequential (initialState images) evs = true ->
  let st := run (initialState images) evs in
  idsFromOne (localImages st)
  /\ NoDup (map tileKey (map tileOf (localImages st))).
Proof.
  intros Hids Hseq st.
  assert (H : idsFromOne (localImages st)).
  { apply run_sequential; [exact Hids | now left | exact Hseq]. }
  split; [exact H | now apply idsFromOne_NoDup].
Qed.

Lemma sequential_sessions_keep_keys_distinct_witness :
  map Image.id
    (localImages (run (initialState [fern])
                    [ClickUpload; SubmitForm mossInputs;
                     InsertSettled 0 InsertOk;
                     ClickUpload; SubmitForm ivyInputs;
                     InsertSettled 0 InsertOk]))
  = [1; 2; 3]%Z.
Proof.
  exact (proj1 (sequential_sessions_keep_keys_distinct [fern]
                  [ClickUpload; SubmitForm mossInputs;
                   InsertSettled 0 InsertOk;
                   ClickUpload; SubmitForm ivyInputs;
                   InsertSettled 0 InsertOk] eq_refl eq_refl)).
Defined.

Lemma nth_error_middle {A : Type} (l1 l2 : list A) (x : A) :
  nth_error (l1 ++ x :: l2) (List.length l1) = Some x.
Proof.
  rewrite nth_error_app2 by lia. now rewrite Nat.sub_diag.
Qed.

(** X7.  Two submissions accepted while the first insert is outstanding
    are given the same id, [N + 1]: once both inserts have settled the list
    holds both records and two tiles share a key. *)
Theorem overlapping_submissions_share_an_id
    (st : State) (d1 d2 : Inputs.t) (r1 r2 : InsertResult) :
  isOpen st = true ->
  validate d1 = [] -> Inputs.key d1 = "on" ->
  validate d2 = [] -> Inputs.key d2 = "on" ->
  let N := List.length (localImages st) in
  let n := List.length (awaiting st) in
  let st' := run st [SubmitForm d1; SubmitForm d2;
                     InsertSettled n r1; InsertSettled n r2] in
  localImages st' = localImages st ++ [newItem N d1; newItem N d2]
  /\ Image.id (newItem N d1) = (Z.of_nat N + 1)%Z
  /\ Image.id (newItem N d2) = (Z.of_nat N + 1)%Z
  /\ ~ NoDup (map tileKey (map tileOf (localImages st'))).
Proof.
  intros Hopen Hv1 Hk1 Hv2 Hk2 N n st'.
  destruct (accepted_submission st d1 r1 Hopen Hv1 Hk1) as [H1 _].
  fold N in H1.
  set (s1 := insert (newItem N d1) (setErrors [] st)) in *.
  destruct (accepted_submission s1 d2 r2 Hopen Hv2 Hk2) as [H2 _].
  change (List.length (localImages s1)) with N in H2.
  set (s2 := insert (newItem N d2) (setErrors [] s1)) in *.
  assert (H3 : step s2 (InsertSettled n r1)
               = {| localImages := localImages st ++ [newItem N d1];
                    isOpen := false;
                    errors := [];
                    awaiting := awaiting st ++ [newItem N d2];
                    inserted := inserted s2 |}).
  { rewrite (settle_some s2 n r1 (newItem N d1)).
    - cbn. rewrite <- app_assoc. cbn. unfold n.
      now rewrite removeNth_middle.
    - cbn. rewrite <- app_assoc. cbn. apply nth_error_middle. }
  assert (Hl : localImages st'
               = localImages st ++ [newItem N d1; newItem N d2]).
  { unfold st', run. cbn [fold_left]. rewrite H1, H2, H3.
    rewrite (settle_some _ n r2 (newItem N d2)).
    - cbn. now rewrite <- app_assoc.
    - cbn. apply nth_error_last. }
  split; [exact Hl |]. split; [reflexivity |]. split; [reflexivity |].
  rewrite Hl, tile_keys_are_ids, map_app. cbn [map]. intro Hnd.
  apply NoDup_app_remove_l in Hnd. inversion Hnd as [| x l Hin _]; subst.
  apply Hin. now left.
Qed.

Lemma overlapping_submissions_share_an_id_witness :
  localImages (run openSession
                 [SubmitForm mossInputs; SubmitForm ivyInputs;
                  InsertSettled 0 InsertOk; InsertSettled 0 InsertOk])
  = [fern; newItem 1 mossInputs; newItem 1 ivyInputs].
Proof.
  exact (proj1 (overlapping_submissions_share_an_id openSession
                  mossInputs ivyInputs InsertOk InsertOk
                  eq_refl eq_refl eq_refl eq_refl eq_refl)).
Defined.

(** X11.  The id of a new record is read off the length of the list, not
    off the ids in it: when a displayed record already has id [N + 1], an
    accepted submission appends a second record with that id and two tiles
    share a key. *)
Theorem new_id_can_repeat_a_displayed_id
    (st : State) (data : Inputs.t) (result : InsertResult) :
  isOpen st = true ->
  validate data = [] -> Inputs.key data = "on" ->
  In (Z.of_nat (List.length (localImages st)) + 1)%Z
     (map Image.id (localImages st)) ->
  let st' := run st [SubmitForm data;
                     InsertSettled (List.length (awaiting st)) result] in
  ~ NoDup (map tileKey (map tileOf (localImages st'))).
Proof.
  intros Hopen Hv Hk Hin st'.
  destruct (accepted_submission st data result Hopen Hv Hk) as [_ Hrun].
  subst st'. rewrite Hrun. cbn [localImages].
  rewrite tile_keys_are_ids, map_app. cbn [map]. intro Hnd.
  apply NoDup_remove_2 in Hnd. apply Hnd.
  rewrite app_nil_r. exact Hin.
Qed.

Lemma new_id_can_repeat_a_displayed_id_witness :
  ~ NoDup (map tileKey
             (map tileOf
                (localImages
                   (run (step (initialState [Image.mk 2 "https://a.example.org/x" "x" "y"])
                           ClickUpload)
                      [SubmitForm mossInputs; InsertSettled 0 InsertOk])))).
Proof.
  apply (new_id_can_repeat_a_displayed_id
           (step (initialState [Image.mk 2 "https://a.example.org/x" "x" "y"])
              ClickUpload)
           mossInputs InsertOk eq_refl eq_refl eq_refl).
  left. reflexivity.
Defined.

(** ** Form errors *)

Lemma step_sameButErrors (s1 s2 : State) (e : Event) :
  sameButErrors s1 s2 -> sameButErrors (step s1 e) (step s2 e).
Proof.
  destruct s1 as [l1 o1 e1 a1 i1], s2 as [l2 o2 e2 a2 i2].
  unfold sameButErrors. cbn. intros (-> & -> & -> & ->).
  destruct e as [| | data | n result]; cbn.
  - now repeat split.
  - now repeat split.
  - destruct o2; [| now repeat split].
    unfold handleSubmit. destruct (validate data); [| now repeat split].
    unfold onSubmit. destruct (negb (Inputs.key data =? "on"));
      now repeat split.
  - destruct (nth_error a2 n); now repeat split.
Qed.

Lemma run_sameButErrors (evs : list Event) :
  forall s1 s2,
    sameButErrors s1 s2 -> sameButErrors (run s1 evs) (run s2 evs).
Proof.
  induction evs as [| e evs IH]; intros s1 s2 H; [exact H |].
  apply (IH (step s1 e) (step s2 e)). now apply step_sameButErrors.
Qed.

(** X8.  A blocked submission leaves no trace on the page.  The errors
    that validation records are not rendered, so the dialog and the grid
    look as they did, and the rest of the session runs as if the
    submission had not been made. *)
Theorem blocked_submission_leaves_no_trace
    (st : State) (data : Inputs.t) (evs : list Event) :
  validate data <> [] ->
  let st' := step st (SubmitForm data) in
  Uploader (isOpen st') (errors st') = Uploader (isOpen st) (errors st)
  /\ Gallery (Some (localImages st')) = Gallery (Some (localImages st))
  /\ sameButErrors (run st' evs) (run st evs)
  /\ Uploader (isOpen (run st' evs)) (errors (run st' evs))
     = Uploader (isOpen (run st evs)) (errors (run st evs)).
Proof.
  intros Hinvalid st'.
  assert (Hsame : sameButErrors st' st).
  { subst st'.
    destruct (submit_cases st data)
      as [(_ & ->) | [(_ & _ & ->) | [(_ & Hv & _) | (_ & Hv & _)]]];
      try contradiction; now repeat split. }
  pose proof (run_sameButErrors evs st' st Hsame) as Hrun.
  destruct Hsame as (Hl & Ho & _ & _).
  destruct Hrun as (Hl' & Ho' & Ha' & Hi').
  unfold Uploader. rewrite Hl, Ho, Ho'. now repeat split.
Qed.

Lemma blocked_submission_leaves_no_trace_witness :
  Uploader (isOpen (step openSession (SubmitForm notUrlInputs)))
    (errors (step openSession (SubmitForm notUrlInputs)))
  = Uploader true [].
Proof.
  assert (H : validate notUrlInputs <> []) by discriminate.
  exact (proj1 (blocked_submission_leaves_no_trace openSession notUrlInputs
                  [] H)).
Defined.

(** ** Class names *)

Lemma truthy_append (a b : string) :
  truthy a = true -> truthy (a ++ b)%string = true.
Proof. destruct a; [discriminate | reflexivity]. Qed.

Lemma truthy_false (a : string) : truthy a = false <-> a = "".
Proof. destruct a; cbn; split; intro H; try reflexivity; discriminate. Qed.

Lemma filter_truthy_all (l : list string) :
  Forall (fun x => truthy x = true) (filter truthy l).
Proof.
  apply Forall_forall. intros x Hx. apply filter_In in Hx. tauto.
Qed.

Lemma join_cons (sep x y : string) (l : list string) :
  join sep (x :: y :: l) = (x ++ sep ++ join sep (y :: l))%string.
Proof. reflexivity. Qed.

Lemma join_truthy (sep : string) (l : list string) :
  Forall (fun x => truthy x = true) l -> l <> [] ->
  truthy (join sep l) = true.
Proof.
  intros Hall Hne. destruct l as [| x l]; [congruence |].
  apply Forall_inv in Hall.
  destruct l as [| y l]; [exact Hall |].
  rewrite join_cons. now apply truthy_append.
Qed.

Lemma join_app (sep : string) (l1 l2 : list string) :
  l1 <> [] -> l2 <> [] ->
  join sep (l1 ++ l2) = (join sep l1 ++ sep ++ join sep l2)%string.
Proof.
  intros H1 H2. induction l1 as [| x l1 IH]; [congruence |].
  destruct l1 as [| y l1].
  - destruct l2 as [| z l2]; [congruence | reflexivity].
  - change ((x :: y :: l1) ++ l2) with (x :: y :: (l1 ++ l2)).
    rewrite !join_cons.
    change (y :: l1 ++ l2) with ((y :: l1) ++ l2).
    rewrite IH by discriminate. now rewrite !append_assoc.
Qed.

Lemma cn_pair (a b : string) :
  cn [a; b]
  = if truthy a
    then if truthy b then (a ++ " " ++ b)%string else a
    else b.
Proof.
  unfold cn. cbn [filter].
  destruct (truthy a) eqn:Ta, (truthy b) eqn:Tb; try reflexivity.
  apply truthy_false in Tb. now subst b.
Qed.

(** X9.  [cn] flattens: joining the class names of two lists at once gives
    what joining each list and then joining the two results gives, so empty
    names never leave a stray space. *)
Theorem cn_app (l1 l2 : list string) :
  cn (l1 ++ l2) = cn [cn l1; cn l2].
Proof.
  rewrite cn_pair. unfold cn. rewrite filter_app.
  pose proof (filter_truthy_all l1) as F1.
  pose proof (filter_truthy_all l2) as F2.
  destruct (filter truthy l1) as [| x1 f1];
    destruct (filter truthy l2) as [| x2 f2].
  - reflexivity.
  - reflexivity.
  - rewrite app_nil_r, (join_truthy " " _ F1) by discriminate. reflexivity.
  - rewrite (join_truthy " " _ F1), (join_truthy " " _ F2) by discriminate.
    apply join_app; discriminate.
Qed.

(** X10.  [cn] returns the empty string exactly when every class name it
    is given is empty. *)
Theorem cn_empty_iff (l : list string) :
  cn l = "" <-> Forall (fun x => x = "") l.
Proof.
  unfold cn. split.
  - intro H. apply Forall_forall. intros x Hx.
    destruct (filter truthy l) as [| y f] eqn:E.
    + apply truthy_false. destruct (truthy x) eqn:T; [| reflexivity].
      assert (Hin : In x (filter truthy l)) by (apply filter_In; now split).
      rewrite E in Hin. destruct Hin.
    + assert (T : truthy (join " " (y :: f)) = true).
      { apply join_truthy; [| discriminate]. rewrite <- E.
        apply filter_truthy_all. }
      rewrite H in T. discriminate.
  - intro H. induction H as [| x l Hx _ IH]; [reflexivity |].
    subst x. exact IH.
Qed.

Lemma cn_empty_iff_witness : cn [""; ""] = "".
Proof.
  apply (proj2 (cn_empty_iff [""; ""])). repeat constructor.
Defined.
